(** * CCSH, the Counter ChaCha Stream Hash of [ccsh.h]

    A shallow embedding of the class [CCSH] and the properties of its
    [start] / [update] / [hexdump] interface.

    Conventions.
    - [uint32_t], [uint64_t] and [uint8_t] values are integers of [Z]; every
      wrap-around of the C++ arithmetic is written out with [u32], [u64],
      [u8].
    - A shift of a 32-bit word by 32 or more is undefined in C++: the two
      shifts return [None] there, and so does everything built on them.
      A loop that is not bounded by a constant runs on fuel and returns
      [None] when the fuel is used up.  The totality lemmas show that
      neither ever happens.
    - The arrays [uint32_t[16]] are lists of words read with [arr_get] and
      written with [arr_set].
    - Input bytes are [Byte.byte]; [memcpy] into the word array goes through
      the byte image of the words, in the byte order of the host, which is
      a parameter of [update]. *)

From Stdlib Require Import ZArith Lia Bool String Ascii List.
From coqutil Require Import Byte Word.LittleEndianList.
Import ListNotations.
Local Open Scope Z_scope.

(** ** The error monad of undefined or unfinished computations *)

Definition bind {A B : Type} (m : option A) (k : A -> option B) : option B :=
  match m with
  | Some a => k a
  | None => None
  end.

Notation "x <- m ;; k" := (bind m (fun x => k))
  (at level 61, m at next level, right associativity).
Notation "' p <- m ;; k" := (bind m (fun p => k))
  (at level 61, p pattern, m at next level, right associativity).

(** ** Fixed-width integers *)

Definition u8 (z : Z) : Z := z mod 2 ^ 8.
Definition u32 (z : Z) : Z := z mod 2 ^ 32.
Definition u64 (z : Z) : Z := z mod 2 ^ 64.

Definition is_u32 (z : Z) : Prop := 0 <= z < 2 ^ 32.
Definition is_u64 (z : Z) : Prop := 0 <= z < 2 ^ 64.

(** [a << n] and [a >> n] on [uint32_t], undefined from [n = 32] on. *)
Definition shl32 (a n : Z) : option Z :=
  if n <? 32 then Some (u32 (Z.shiftl a n)) else None.

Definition shr32 (a n : Z) : option Z :=
  if n <? 32 then Some (Z.shiftr a n) else None.

(** [CCSH::rotateLeft]: [((a) << (b)) | ((a) >> (32 - (b)))], where
    [32 - b] is an unsigned subtraction. *)
Definition rotateLeft (a b : Z) : option Z :=
  hi <- shl32 a b ;;
  lo <- shr32 a (u32 (32 - b)) ;;
  Some (Z.lor hi lo).

(** ** Arrays of words *)

Definition arr_get (i : nat) (x : list Z) : Z := nth i x 0.

Fixpoint arr_set (i : nat) (v : Z) (x : list Z) : list Z :=
  match x with
  | [] => []
  | h :: t =>
      match i with
      | O => v :: t
      | S j => h :: arr_set j v t
      end
  end.

(** [for (i = 0; i < 16; ++i) body], the loop variable running over an
    array that the body updates. *)
Definition for_each16 (body : nat -> list Z -> list Z) (x : list Z) : list Z :=
  fold_left (fun acc i => body i acc) (seq 0 16) x.

(** ** The quarter round *)

Section QuarterRound.

(** The rotation that the quarter round calls; [CCSH::quarterRound] is
    the instance at [rotateLeft]. *)
Variable rotate : Z -> Z -> option Z.

Definition quarterRound_with (q : Z * Z * Z * Z) : option (Z * Z * Z * Z) :=
  let '(a, b, c, d) := q in
  let a := u32 (a + b) in let d := Z.lxor d a in d <- rotate d 16 ;;
  let c := u32 (c + d) in let b := Z.lxor b c in b <- rotate b 12 ;;
  let a := u32 (a + b) in let d := Z.lxor d a in d <- rotate d 8 ;;
  let c := u32 (c + d) in let b := Z.lxor b c in b <- rotate b 7 ;;
  Some (a, b, c, d).

End QuarterRound.

Definition quarterRound : Z * Z * Z * Z -> option (Z * Z * Z * Z) :=
  quarterRound_with rotateLeft.

(** [quarterRound(x[ia], x[ib], x[ic], x[id])]: the four references are
    read, the quarter round runs, the four results are written back. *)
Definition quarterRound_at (x : list Z) (ia ib ic id : nat) : option (list Z) :=
  '(a, b, c, d) <-
    quarterRound (arr_get ia x, arr_get ib x, arr_get ic x, arr_get id x) ;;
  Some (arr_set id d (arr_set ic c (arr_set ib b (arr_set ia a x)))).

(** ** The block function *)

(** The body of the round loop of [chacha_block]. *)
Definition double_round (x : list Z) : option (list Z) :=
  x <- quarterRound_at x 0 4 8 12 ;;
  x <- quarterRound_at x 1 5 9 13 ;;
  x <- quarterRound_at x 2 6 10 14 ;;
  x <- quarterRound_at x 3 7 11 15 ;;
  x <- quarterRound_at x 0 5 10 15 ;;
  x <- quarterRound_at x 1 6 11 12 ;;
  x <- quarterRound_at x 2 7 8 13 ;;
  quarterRound_at x 3 4 9 14.

(** [for (i = 0; i < n; i++) double round]. *)
Fixpoint rounds (n : nat) (x : list Z) : option (list Z) :=
  match n with
  | O => Some x
  | S k => x <- double_round x ;; rounds k x
  end.

(** [CCSH::chacha_block(out, in)]; the result is the array [out] after the
    call.  The local [x] is filled by the first loop before it is read. *)
Definition chacha_block (out inp : list Z) : option (list Z) :=
  let x := for_each16 (fun i x => arr_set i (arr_get i inp) x) (repeat 0 16) in
  x <- rounds 10 x ;;
  Some (for_each16 (fun i out => arr_set i (u32 (arr_get i x + arr_get i inp)) out) out).

(** [rotateLeft] for the rotation amounts of a list only: undefined for
    every other amount. *)
Definition rotateLeft_on (amounts : list Z) (a b : Z) : option Z :=
  if existsb (Z.eqb b) amounts then rotateLeft a b else None.

(** ** Bytes and words in memory *)

Inductive byte_order : Type := LittleEndian | BigEndian.

(** The value of the word stored in four consecutive bytes. *)
Definition word_of_bytes (bo : byte_order) (bs : list byte) : Z :=
  match bo with
  | LittleEndian => le_combine bs
  | BigEndian => le_combine (rev bs)
  end.

(** The four bytes that store a word. *)
Definition bytes_of_word (bo : byte_order) (w : Z) : list byte :=
  match bo with
  | LittleEndian => le_split 4 w
  | BigEndian => rev (le_split 4 w)
  end.

(** The byte image of an array of words. *)
Definition bytes_of_words (bo : byte_order) (ws : list Z) : list byte :=
  flat_map (bytes_of_word bo) ws.

Fixpoint words_of_bytes (bo : byte_order) (bs : list byte) : list Z :=
  match bs with
  | b0 :: b1 :: b2 :: b3 :: tl =>
      word_of_bytes bo [b0; b1; b2; b3] :: words_of_bytes bo tl
  | _ => []
  end.

(** Writing the bytes [src] into the array [a], from its word [wofs] on:
    what [memset(a + wofs, ...)] and [memcpy(a + wofs, ...)] do to [a]. *)
Definition write_bytes (bo : byte_order) (a : list Z) (wofs : nat)
    (src : list byte) : list Z :=
  let img := bytes_of_words bo a in
  let at_ := (4 * wofs)%nat in
  words_of_bytes bo
    (firstn at_ img ++ src ++ skipn (at_ + length src) img).

Definition memset (bo : byte_order) (a : list Z) (wofs : nat) (v : byte)
    (n : nat) : list Z :=
  write_bytes bo a wofs (repeat v n).

Definition memcpy (bo : byte_order) (a : list Z) (wofs : nat)
    (src : list byte) (n : nat) : list Z :=
  write_bytes bo a wofs (firstn n src).

(** ** The hasher *)

(** The member variables: [state], the sixteen words of the hash;
    [counter], a [uint64_t] that counts the bytes; [nonce], a [uint64_t]
    that moves with each pass of the loop of [update], not with each round;
    [initialized], the flag that says whether [state] holds a block yet. *)
Record CCSH : Type := mkCCSH {
  state : list Z;
  counter : Z;
  nonce : Z;
  initialized : bool
}.

(** [CCSH::CCSH()]. *)
Definition CCSH_new : CCSH :=
  {| state := repeat 0 16; counter := 0; nonce := 0; initialized := false |}.

Definition set_state (v : list Z) (this : CCSH) : CCSH :=
  {| state := v; counter := counter this; nonce := nonce this;
     initialized := initialized this |}.

Definition set_counter (v : Z) (this : CCSH) : CCSH :=
  {| state := state this; counter := v; nonce := nonce this;
     initialized := initialized this |}.

Definition set_nonce (v : Z) (this : CCSH) : CCSH :=
  {| state := state this; counter := counter this; nonce := v;
     initialized := initialized this |}.

Definition set_initialized (v : bool) (this : CCSH) : CCSH :=
  {| state := state this; counter := counter this; nonce := nonce this;
     initialized := v |}.

(** The object and the locals of a running [update]: [data] is the input
    from the read position up to [dataEnd], so that [dataEnd - data] is its
    length and [data < dataEnd] says that it is not empty. *)
Record frame : Type := mkFrame {
  self : CCSH;
  currState : list Z;
  outputBlock : list Z;
  data : list byte
}.

(** The initial value of [currState]: four words given, the rest zero. *)
Definition currState_init : list Z :=
  [0x65787061; 0x6E642033; 0x32206279; 0x7465206B;
   0; 0; 0; 0; 0; 0; 0; 0; 0; 0; 0; 0].

Definition update_enter (this : CCSH) (bytes : list byte) : frame :=
  {| self := this; currState := currState_init;
     outputBlock := repeat 0 16; data := bytes |}.

(** [std::min<uint8_t>(dataEnd - data, 32)]: both arguments are converted
    to [uint8_t] before they are compared. *)
Definition bytesToCopy (remaining : Z) : Z :=
  Z.min (u8 remaining) (u8 32).

(** The first half of the loop body, up to the call of [chacha_block]:
    [currState] becomes the input of the permutation and the two counters
    move. *)
Definition prepare_block (bo : byte_order) (f : frame) : frame :=
  let this := self f in
  let cs := memset bo (currState f) 4 Byte.x00 (8 * 4) in
  let n := bytesToCopy (Z.of_nat (length (data f))) in
  let cs := memcpy bo cs 4 (data f) (Z.to_nat n) in
  let this := set_counter (u64 (counter this + n)) this in
  let cs := arr_set 12 (u32 (counter this)) cs in
  let cs := arr_set 14 (u32 (nonce this)) cs in
  let this := set_nonce (u64 (nonce this + 1)) this in
  {| self := this; currState := cs; outputBlock := outputBlock f;
     data := data f |}.

(** The second half: the permutation and its accumulation in [state]. *)
Definition absorb_block (f : frame) : option frame :=
  out <- chacha_block (outputBlock f) (currState f) ;;
  let this := self f in
  let this :=
    if negb (initialized this) then
      set_initialized true (set_state out this)
    else
      set_state
        (for_each16
           (fun j st => arr_set j (Z.lxor (arr_get j st) (arr_get j out)) st)
           (state this))
        this in
  Some {| self := this; currState := currState f; outputBlock := out;
          data := data f |}.

(** [data += 32]. *)
Definition advance (f : frame) : frame :=
  {| self := self f; currState := currState f;
     outputBlock := outputBlock f; data := skipn 32 (data f) |}.

Definition update_body (bo : byte_order) (f : frame) : option frame :=
  f <- absorb_block (prepare_block bo f) ;;
  Some (advance f).

(** [for (; data < dataEnd; data += 32) body]. *)
Fixpoint update_loop (bo : byte_order) (fuel : nat) (f : frame) : option frame :=
  match data f with
  | [] => Some f
  | _ :: _ =>
      match fuel with
      | O => None
      | S k => f <- update_body bo f ;; update_loop bo k f
      end
  end.

(** [CCSH::update(data, length)]. *)
Definition update (bo : byte_order) (this : CCSH) (bytes : list byte) : option CCSH :=
  f <- update_loop bo (length bytes) (update_enter this bytes) ;;
  Some (self f).

(** [CCSH::start(data, length)]. *)
Definition start (bo : byte_order) (this : CCSH) (bytes : list byte) : option CCSH :=
  let this := set_state (map (fun _ => 0) (state this)) this in
  let this := set_counter 0 this in
  let this := set_nonce 0 this in
  let this := set_initialized false this in
  update bo this bytes.

(** The overloads on [std::string] hand the characters of the string on
    as bytes. *)
Definition start_string (bo : byte_order) (this : CCSH) (s : string) : option CCSH :=
  start bo this (list_byte_of_string s).

Definition update_string (bo : byte_order) (this : CCSH) (s : string) : option CCSH :=
  update bo this (list_byte_of_string s).

(** ** The digest *)

Definition hex_digit (d : Z) : ascii :=
  nth (Z.to_nat d) (list_ascii_of_string "0123456789abcdef") "0"%char.

(** The digits of [v] in base 16 before [acc], the most significant first
    and without leading zeros, as [operator<<] prints an [unsigned int]
    under [std::hex]; an [unsigned int] has at most eight of them. *)
Fixpoint hex_digits (fuel : nat) (v : Z) (acc : string) : string :=
  match fuel with
  | O => acc
  | S k =>
      let acc := String (hex_digit (v mod 16)) acc in
      if v / 16 =? 0 then acc else hex_digits k (v / 16) acc
  end.

Fixpoint fill_string (n : nat) (c : ascii) : string :=
  match n with
  | O => EmptyString
  | S k => String c (fill_string k c)
  end.

(** [ss << std::hex << std::setw(w) << std::setfill(c) << v]: the text is
    padded on the left up to the width. *)
Definition put_hex (w : nat) (c : ascii) (v : Z) : string :=
  let s := hex_digits 8 v EmptyString in
  (fill_string (w - String.length s) c ++ s)%string.

(** [CCSH::hexdump()]. *)
Definition hexdump (this : CCSH) : string :=
  fold_left
    (fun ss i => (ss ++ put_hex 8 "0"%char (arr_get i (state this)))%string)
    (seq 0 16) EmptyString.

(** ** Sequences of calls on one object *)

Inductive call : Type :=
| Start (bytes : list byte)
| Update (bytes : list byte)
| Hexdump.

(** A call gives the object after it and what it returned. *)
Definition exec (bo : byte_order) (c : call) (this : CCSH)
    : option (CCSH * option string) :=
  match c with
  | Start bytes => this <- start bo this bytes ;; Some (this, None)
  | Update bytes => this <- update bo this bytes ;; Some (this, None)
  | Hexdump => Some (this, Some (hexdump this))
  end.

Fixpoint run (bo : byte_order) (cs : list call) (this : CCSH)
    : option (CCSH * list string) :=
  match cs with
  | [] => Some (this, [])
  | c :: cs =>
      '(this, r) <- exec bo c this ;;
      '(this, rs) <- run bo cs this ;;
      Some (this, match r with Some d => d :: rs | None => rs end)
  end.

(** The calls that go on with the session of the object: all but [start]. *)
Definition continues (c : call) : bool :=
  match c with
  | Start _ => false
  | Update _ | Hexdump => true
  end.

(** The object after [start("abc")] on a little-endian host. *)
Definition after_abc : CCSH :=
  {| state :=
       [0xd7504bdf; 0xb02ef257; 0x0358825e; 0xec634452;
        0x00a61059; 0xe95cebc6; 0x648b2333; 0x9ec504e6;
        0x63cf48c6; 0x4e16f10d; 0xefd91d96; 0x457ff4a6;
        0x02e2bf84; 0xbb9247e4; 0xb0035d48; 0xe23377cc];
     counter := 3; nonce := 1; initialized := true |}.

(** The states an object can be in: those that some sequence of calls
    reaches from the constructed object. *)
Definition reachable (bo : byte_order) (this : CCSH) : Prop :=
  exists cs rs, run bo cs CCSH_new = Some (this, rs).

(** The frames that the loop of [update] goes through from the frame [f0]:
    [f0] itself and, after each frame with input left, the frame that one
    pass through the body leaves. *)
Inductive iterates (bo : byte_order) (f0 : frame) : frame -> Prop :=
| iterates_enter : iterates bo f0 f0
| iterates_body f f' :
    iterates bo f0 f -> data f <> [] -> update_body bo f = Some f' ->
    iterates bo f0 f'.

(** ** The permutation as the specification describes it

    Quarter rounds as functions of four values, the groups of indices as
    data, ten double rounds and the addition of the input. *)

Module Reference.

Definition rotl (x n : Z) : Z :=
  Z.lor (u32 (Z.shiftl x n)) (Z.shiftr x (32 - n)).

Definition quarter (q : Z * Z * Z * Z) : Z * Z * Z * Z :=
  let '(a, b, c, d) := q in
  let a := u32 (a + b) in let d := rotl (Z.lxor d a) 16 in
  let c := u32 (c + d) in let b := rotl (Z.lxor b c) 12 in
  let a := u32 (a + b) in let d := rotl (Z.lxor d a) 8 in
  let c := u32 (c + d) in let b := rotl (Z.lxor b c) 7 in
  (a, b, c, d).

Definition columns : list (nat * nat * nat * nat) :=
  [(0, 4, 8, 12); (1, 5, 9, 13); (2, 6, 10, 14); (3, 7, 11, 15)]%nat.

Definition diagonals : list (nat * nat * nat * nat) :=
  [(0, 5, 10, 15); (1, 6, 11, 12); (2, 7, 8, 13); (3, 4, 9, 14)]%nat.

Definition quarter_on (x : list Z) (g : nat * nat * nat * nat) : list Z :=
  let '(i, j, k, l) := g in
  let '(a, b, c, d) :=
    quarter (arr_get i x, arr_get j x, arr_get k x, arr_get l x) in
  arr_set l d (arr_set k c (arr_set j b (arr_set i a x))).

Definition double (x : list Z) : list Z :=
  fold_left quarter_on diagonals (fold_left quarter_on columns x).

Definition permutation (inp : list Z) : list Z :=
  let x := Nat.iter 10 double inp in
  map (fun i => u32 (arr_get i x + arr_get i inp)) (seq 0 16).

End Reference.

(** ** The digest text as the specification describes it *)

(** The hexadecimal digit of weight [16 ^ k] of a word. *)
Definition nibble (w : Z) (k : nat) : Z := (w / 16 ^ Z.of_nat k) mod 16.

(** Eight digits, the most significant first. *)
Definition hex8 (w : Z) : string :=
  string_of_list_ascii
    (map (fun k => hex_digit (nibble w k)) [7; 6; 5; 4; 3; 2; 1; 0]%nat).

Definition digest_text (st : list Z) : string :=
  String.concat EmptyString (map (fun i => hex8 (arr_get i st)) (seq 0 16)).

Definition is_lower_hex (c : ascii) : bool :=
  let n := nat_of_ascii c in
  ((48 <=? n) && (n <=? 57) || (97 <=? n) && (n <=? 102))%nat.

Fixpoint string_forall (p : ascii -> bool) (s : string) : bool :=
  match s with
  | EmptyString => true
  | String c s => p c && string_forall p s
  end.

(** ** The constant words as text *)

(** Four characters in one word, the first one in the most significant
    byte. *)
Definition pack_be (s : string) : list Z :=
  words_of_bytes BigEndian (list_byte_of_string s).

(** Four characters in one word, the first one in the least significant
    byte. *)
Definition pack_le (s : string) : list Z :=
  words_of_bytes LittleEndian (list_byte_of_string s).

(** ** What one pass through the loop works on *)

(** The number of bytes that the pass starting in frame [f] copies, and
    those bytes. *)
Definition chunk_length (f : frame) : nat :=
  Z.to_nat (bytesToCopy (Z.of_nat (length (data f)))).

Definition chunk (f : frame) : list byte :=
  firstn (chunk_length f) (data f).

(** The 32 bytes of the words 4 to 11 of a block. *)
Definition payload (bo : byte_order) (cs : list Z) : list byte :=
  bytes_of_words bo (firstn 8 (skipn 4 cs)).

(** ** Invariants *)

(** What [update] keeps true of [currState]: sixteen words, the first four
    as given, the words 13 and 15 zero. *)
Definition block_shape (cs : list Z) : Prop :=
  length cs = 16%nat /\ Forall is_u32 cs /\
  firstn 4 cs = firstn 4 currState_init /\
  arr_get 13 cs = 0 /\ arr_get 15 cs = 0.

Definition frame_ok (f : frame) : Prop :=
  block_shape (currState f) /\ length (outputBlock f) = 16%nat.

(** What every sequence of calls keeps true of the object. *)
Definition CCSH_ok (this : CCSH) : Prop :=
  length (state this) = 16%nat /\ Forall is_u32 (state this) /\
  is_u64 (counter this) /\ is_u64 (nonce this).

(** ** What a call adds up to *)

(** The bytes that the passes over an input of [n] bytes count: all of
    them below 256; from there on, each pass that starts with a multiple
    of 256 bytes and [r] more left, [r < 32], counts [r] instead of 32. *)
Definition counted (n : Z) : Z := n - (32 - n mod 32) * (n / 256).

(** The block of a pass: the four given words, the bytes copied followed
    by zero bytes, read as eight words, then the counter after the pass, a
    zero, the nonce before the pass and a zero. *)
Definition block_of (bo : byte_order) (copied : list byte) (count nce : Z) : list Z :=
  [0x65787061; 0x6E642033; 0x32206279; 0x7465206B] ++
  words_of_bytes bo (copied ++ repeat Byte.x00 (32 - length copied)) ++
  [u32 count; 0; u32 nce; 0].

(** Word by word exclusive or of two arrays of sixteen words. *)
Definition xor_words (a b : list Z) : list Z :=
  map (fun j => Z.lxor (arr_get j a) (arr_get j b)) (seq 0 16).

(** Whether a call has bytes to take in. *)
Definition has_bytes (bytes : list byte) : bool :=
  match bytes with
  | [] => false
  | _ :: _ => true
  end.

(** ** Reading a digest text *)

(** The value of a hexadecimal digit in lower case. *)
Definition hex_value (c : ascii) : Z :=
  let n := Z.of_nat (nat_of_ascii c) in
  if n <? 58 then n - 48 else n - 87.

(** The number that a string of digits writes, after the digits of [acc]. *)
Fixpoint parse_hex (s : string) (acc : Z) : Z :=
  match s with
  | EmptyString => acc
  | String c s => parse_hex s (16 * acc + hex_value c)
  end.

(** The words that groups of eight digits write, [n] groups at most. *)
Fixpoint parse_words (n : nat) (s : string) : list Z :=
  match n, s with
  | S k, String c7 (String c6 (String c5 (String c4 (String c3 (String c2
           (String c1 (String c0 rest))))))) =>
      parse_hex
        (String c7 (String c6 (String c5 (String c4 (String c3 (String c2
           (String c1 (String c0 EmptyString)))))))) 0
      :: parse_words k rest
  | _, _ => []
  end.

(** * Properties *)

(** ** The option monad *)

Lemma bind_Some {A B : Type} (m : option A) (k : A -> option B) (b : B) :
  bind m k = Some b <-> exists a, m = Some a /\ k a = Some b.
Proof.
  destruct m as [a|]; simpl; split.
  - intros H. exists a. auto.
  - intros [a' [E H]]. inversion E. subst. exact H.
  - discriminate.
  - intros [a' [E _]]. discriminate.
Qed.

Lemma Some_inj {A : Type} (a b : A) : Some a = Some b -> a = b.
Proof. intros H. injection H. auto. Qed.

(** ** Arrays *)

Lemma arr_set_length (i : nat) (v : Z) (x : list Z) :
  length (arr_set i v x) = length x.
Proof.
  revert i. induction x as [|h t IH]; intros [|j]; simpl; auto.
Qed.

Lemma arr_get_set_same (i : nat) (v : Z) (x : list Z) :
  (i < length x)%nat -> arr_get i (arr_set i v x) = v.
Proof.
  unfold arr_get. revert i.
  induction x as [|h t IH]; intros [|j] H; simpl in *; try lia; auto.
  apply IH. lia.
Qed.

Lemma arr_get_set_other (i j : nat) (v : Z) (x : list Z) :
  i <> j -> arr_get i (arr_set j v x) = arr_get i x.
Proof.
  unfold arr_get. revert i j.
  induction x as [|h t IH]; intros [|i] [|j] H; simpl; auto; try congruence.
Qed.

Lemma arr_set_Forall (P : Z -> Prop) (i : nat) (v : Z) (x : list Z) :
  P v -> Forall P x -> Forall P (arr_set i v x).
Proof.
  intros Hv Hx. revert i.
  induction Hx as [|h t Hh Ht IH]; intros [|j]; simpl; auto.
Qed.

Lemma for_each16_length (body : nat -> list Z -> list Z) (x : list Z) :
  (forall i a, length (body i a) = length a) ->
  length (for_each16 body x) = length x.
Proof.
  intros H. unfold for_each16. generalize (seq 0 16). intros l. revert x.
  induction l as [|i l IH]; intros x; [reflexivity|].
  cbn [fold_left]. rewrite IH. apply H.
Qed.

(** A list of sixteen elements, element by element. *)
Ltac sixteen x H :=
  do 16 (destruct x as [|? x]; [discriminate H|]);
  destruct x; [clear H | discriminate H].

(** A loop that stores a value in every element leaves those values. *)
Lemma for_each16_store (g : nat -> Z) (x : list Z) :
  length x = 16%nat ->
  for_each16 (fun i a => arr_set i (g i) a) x = map g (seq 0 16).
Proof.
  intros H. sixteen x H. reflexivity.
Qed.

(** A loop that updates every element from its own value. *)
Lemma for_each16_modify (g : nat -> Z -> Z) (x : list Z) :
  length x = 16%nat ->
  for_each16 (fun i a => arr_set i (g i (arr_get i a)) a) x =
  map (fun i => g i (arr_get i x)) (seq 0 16).
Proof.
  intros H. sixteen x H. reflexivity.
Qed.

Lemma map_arr_get_16 (x : list Z) :
  length x = 16%nat -> map (fun i => arr_get i x) (seq 0 16) = x.
Proof.
  intros H. sixteen x H. reflexivity.
Qed.

(** ** Rotations and quarter rounds *)

Lemma rotateLeft_defined (a b : Z) :
  1 <= b <= 31 -> rotateLeft a b = Some (Reference.rotl a b).
Proof.
  intros H. unfold rotateLeft, shl32, shr32, Reference.rotl.
  replace (u32 (32 - b)) with (32 - b)
    by (unfold u32; rewrite Z.mod_small; lia).
  replace (b <? 32) with true by (symmetry; apply Z.ltb_lt; lia).
  replace (32 - b <? 32) with true by (symmetry; apply Z.ltb_lt; lia).
  reflexivity.
Qed.

Lemma quarterRound_reference (q : Z * Z * Z * Z) :
  quarterRound q = Some (Reference.quarter q).
Proof.
  destruct q as [[[a b] c] d].
  unfold quarterRound, quarterRound_with, Reference.quarter.
  cbv zeta.
  repeat (rewrite rotateLeft_defined by lia; cbn [bind]).
  reflexivity.
Qed.

Lemma quarterRound_at_reference (x : list Z) (i j k l : nat) :
  quarterRound_at x i j k l = Some (Reference.quarter_on x (i, j, k, l)).
Proof.
  unfold quarterRound_at, Reference.quarter_on.
  rewrite quarterRound_reference. cbn [bind].
  destruct (Reference.quarter _) as [[[a b] c] d]. reflexivity.
Qed.

Lemma double_round_reference (x : list Z) :
  double_round x = Some (Reference.double x).
Proof.
  unfold double_round, Reference.double, Reference.columns, Reference.diagonals.
  cbn [fold_left].
  repeat (rewrite quarterRound_at_reference; cbn [bind]).
  reflexivity.
Qed.

Lemma rounds_reference (n : nat) (x : list Z) :
  rounds n x = Some (Nat.iter n Reference.double x).
Proof.
  revert x. induction n as [|n IH]; intros x.
  - reflexivity.
  - cbn [rounds]. rewrite double_round_reference. cbn [bind].
    rewrite IH, Nat.iter_succ_r. reflexivity.
Qed.

Lemma quarter_on_length (x : list Z) (g : nat * nat * nat * nat) :
  length (Reference.quarter_on x g) = length x.
Proof.
  destruct g as [[[i j] k] l]. unfold Reference.quarter_on.
  destruct (Reference.quarter _) as [[[a b] c] d].
  rewrite !arr_set_length. reflexivity.
Qed.

Lemma chacha_block_reference_gen (out inp : list Z) :
  length out = 16%nat -> length inp = 16%nat ->
  chacha_block out inp = Some (Reference.permutation inp).
Proof.
  intros Hout Hinp. unfold chacha_block, Reference.permutation.
  rewrite for_each16_store by apply repeat_length.
  rewrite map_arr_get_16 by exact Hinp.
  rewrite rounds_reference. cbn [bind].
  rewrite for_each16_store by exact Hout.
  reflexivity.
Qed.

(** ** Lists *)

Lemma Forall_firstn {A : Type} (P : A -> Prop) (n : nat) (l : list A) :
  Forall P l -> Forall P (firstn n l).
Proof.
  intros H. revert n. induction H as [|h t Hh Ht IH]; intros [|n]; simpl; auto.
Qed.

Lemma Forall_skipn {A : Type} (P : A -> Prop) (n : nat) (l : list A) :
  Forall P l -> Forall P (skipn n l).
Proof.
  intros H. revert n. induction H as [|h t Hh Ht IH]; intros [|n]; simpl; auto.
Qed.

Lemma skipn_repeat {A : Type} (x : A) (n m : nat) :
  skipn n (repeat x m) = repeat x (m - n).
Proof.
  revert m. induction n as [|n IH]; intros [|m]; simpl; auto.
Qed.

(** ** Words and their bytes *)

Lemma bytes_of_word_length (bo : byte_order) (w : Z) :
  length (bytes_of_word bo w) = 4%nat.
Proof.
  destruct bo; unfold bytes_of_word; rewrite ?length_rev, length_le_split;
    reflexivity.
Qed.

Lemma word_of_bytes_of_word (bo : byte_order) (w : Z) :
  is_u32 w -> word_of_bytes bo (bytes_of_word bo w) = w.
Proof.
  intros H. destruct bo; unfold word_of_bytes, bytes_of_word;
    rewrite ?rev_involutive, le_combine_split; apply Z.mod_small; exact H.
Qed.

Lemma bytes_of_word_of_bytes (bo : byte_order) (bs : list byte) :
  length bs = 4%nat -> bytes_of_word bo (word_of_bytes bo bs) = bs.
Proof.
  intros H. destruct bo; unfold word_of_bytes, bytes_of_word.
  - rewrite <- H. apply split_le_combine.
  - replace 4%nat with (length (rev bs)) by (rewrite length_rev; exact H).
    rewrite split_le_combine. apply rev_involutive.
Qed.

Lemma word_of_bytes_u32 (bo : byte_order) (bs : list byte) :
  length bs = 4%nat -> is_u32 (word_of_bytes bo bs).
Proof.
  intros H. unfold is_u32.
  destruct bo; unfold word_of_bytes.
  - pose proof (le_combine_bound bs) as B. rewrite H in B. exact B.
  - pose proof (le_combine_bound (rev bs)) as B.
    rewrite length_rev, H in B. exact B.
Qed.

(** A list of bytes whose length is a multiple of four, four by four. *)
Lemma quads_ind (P : list byte -> Prop) :
  P [] ->
  (forall b0 b1 b2 b3 tl, P tl -> P (b0 :: b1 :: b2 :: b3 :: tl)) ->
  forall k bs, length bs = (4 * k)%nat -> P bs.
Proof.
  intros Hnil Hcons. induction k as [|k IH]; intros bs H.
  - destruct bs; [exact Hnil | discriminate H].
  - do 4 (destruct bs as [|? bs]; [simpl in H; lia|]).
    apply Hcons, IH. simpl in H. lia.
Qed.

Lemma words_of_bytes_app (bo : byte_order) (k : nat) (xs ys : list byte) :
  length xs = (4 * k)%nat ->
  words_of_bytes bo (xs ++ ys) = words_of_bytes bo xs ++ words_of_bytes bo ys.
Proof.
  intros H. revert k xs H.
  apply (quads_ind (fun xs =>
    words_of_bytes bo (xs ++ ys) = words_of_bytes bo xs ++ words_of_bytes bo ys)).
  - reflexivity.
  - intros b0 b1 b2 b3 tl IH. cbn [app words_of_bytes]. rewrite IH. reflexivity.
Qed.

Lemma words_of_bytes_length (bo : byte_order) (k : nat) (bs : list byte) :
  length bs = (4 * k)%nat -> length (words_of_bytes bo bs) = k.
Proof.
  revert bs. induction k as [|k IH]; intros bs H.
  - destruct bs; [reflexivity | discriminate H].
  - do 4 (destruct bs as [|? bs]; [simpl in H; lia|]).
    cbn [words_of_bytes length]. f_equal. apply IH. simpl in H. lia.
Qed.

Lemma words_of_bytes_u32 (bo : byte_order) (bs : list byte) :
  Forall is_u32 (words_of_bytes bo bs).
Proof.
  remember (length bs) as n eqn:Hn. revert bs Hn.
  induction n as [n IH] using lt_wf_ind. intros bs Hn.
  destruct bs as [|b0 [|b1 [|b2 [|b3 tl]]]]; try (constructor; fail).
  cbn [words_of_bytes]. constructor.
  - apply word_of_bytes_u32. reflexivity.
  - apply (IH (length tl)); [simpl in Hn; lia | reflexivity].
Qed.

Lemma bytes_of_words_app (bo : byte_order) (xs ys : list Z) :
  bytes_of_words bo (xs ++ ys) = bytes_of_words bo xs ++ bytes_of_words bo ys.
Proof. apply flat_map_app. Qed.

Lemma bytes_of_words_length (bo : byte_order) (ws : list Z) :
  length (bytes_of_words bo ws) = (4 * length ws)%nat.
Proof.
  induction ws as [|w ws IH]; [reflexivity|].
  cbn [bytes_of_words flat_map]. fold (bytes_of_words bo ws).
  rewrite length_app, bytes_of_word_length, IH. simpl. lia.
Qed.

Lemma words_of_bytes_of_words (bo : byte_order) (ws : list Z) :
  Forall is_u32 ws -> words_of_bytes bo (bytes_of_words bo ws) = ws.
Proof.
  induction 1 as [|w ws Hw Hws IH]; [reflexivity|].
  cbn [bytes_of_words flat_map]. fold (bytes_of_words bo ws).
  pose proof (bytes_of_word_length bo w) as L.
  pose proof (word_of_bytes_of_word bo w Hw) as E.
  destruct (bytes_of_word bo w) as [|b0 [|b1 [|b2 [|b3 [|]]]]];
    try discriminate L.
  cbn [app words_of_bytes]. rewrite E, IH. reflexivity.
Qed.

Lemma bytes_of_words_of_bytes (bo : byte_order) (k : nat) (bs : list byte) :
  length bs = (4 * k)%nat -> bytes_of_words bo (words_of_bytes bo bs) = bs.
Proof.
  revert k bs.
  apply (quads_ind (fun bs => bytes_of_words bo (words_of_bytes bo bs) = bs)).
  - reflexivity.
  - intros b0 b1 b2 b3 tl IH.
    cbn [words_of_bytes bytes_of_words flat_map].
    fold (bytes_of_words bo (words_of_bytes bo tl)).
    rewrite bytes_of_word_of_bytes by reflexivity. rewrite IH. reflexivity.
Qed.

Lemma bytes_of_words_firstn (bo : byte_order) (n : nat) (ws : list Z) :
  firstn (4 * n) (bytes_of_words bo ws) = bytes_of_words bo (firstn n ws).
Proof.
  revert ws. induction n as [|n IH]; intros ws; [reflexivity|].
  destruct ws as [|w ws]; [reflexivity|].
  cbn [firstn bytes_of_words flat_map].
  fold (bytes_of_words bo ws). fold (bytes_of_words bo (firstn n ws)).
  rewrite firstn_app, bytes_of_word_length.
  rewrite firstn_all2 by (rewrite bytes_of_word_length; lia).
  replace (4 * S n - 4)%nat with (4 * n)%nat by lia.
  rewrite IH. reflexivity.
Qed.

Lemma bytes_of_words_skipn (bo : byte_order) (n : nat) (ws : list Z) :
  skipn (4 * n) (bytes_of_words bo ws) = bytes_of_words bo (skipn n ws).
Proof.
  revert ws. induction n as [|n IH]; intros ws; [reflexivity|].
  destruct ws as [|w ws]; [reflexivity|].
  cbn [skipn bytes_of_words flat_map]. fold (bytes_of_words bo ws).
  rewrite skipn_app, bytes_of_word_length.
  rewrite skipn_all2 by (rewrite bytes_of_word_length; lia).
  replace (4 * S n - 4)%nat with (4 * n)%nat by lia.
  rewrite IH. reflexivity.
Qed.

(** Writing whole words: the words before and after stay, the bytes
    written are read back as words. *)
Lemma write_bytes_aligned (bo : byte_order) (a : list Z) (wofs k : nat)
    (src : list byte) :
  Forall is_u32 a -> length src = (4 * k)%nat -> (wofs + k <= length a)%nat ->
  write_bytes bo a wofs src =
  firstn wofs a ++ words_of_bytes bo src ++ skipn (wofs + k) a.
Proof.
  intros Ha Hsrc Hlen. unfold write_bytes.
  replace (4 * wofs + length src)%nat with (4 * (wofs + k))%nat by lia.
  rewrite bytes_of_words_firstn, bytes_of_words_skipn.
  rewrite (words_of_bytes_app bo (length (firstn wofs a)))
    by apply bytes_of_words_length.
  rewrite (words_of_bytes_app bo k) by exact Hsrc.
  rewrite !words_of_bytes_of_words; auto using Forall_firstn, Forall_skipn.
Qed.

(** ** The input of the permutation *)

Lemma bytesToCopy_range (r : Z) : 0 <= bytesToCopy r <= 32.
Proof.
  unfold bytesToCopy, u8. change (32 mod 2 ^ 8) with 32.
  pose proof (Z.mod_pos_bound r (2 ^ 8) eq_refl). lia.
Qed.

Lemma bytesToCopy_le (r : Z) : 0 <= r -> bytesToCopy r <= r.
Proof.
  intros H. unfold bytesToCopy, u8.
  pose proof (Z.mod_le r (2 ^ 8) H eq_refl). lia.
Qed.

Lemma bytesToCopy_below_256 (r : Z) :
  0 <= r < 256 -> bytesToCopy r = Z.min r 32.
Proof.
  intros H. unfold bytesToCopy, u8. change (32 mod 2 ^ 8) with 32.
  rewrite Z.mod_small by (change (2 ^ 8) with 256; lia). reflexivity.
Qed.

Lemma chunk_length_le_32 (f : frame) : (chunk_length f <= 32)%nat.
Proof.
  unfold chunk_length.
  pose proof (bytesToCopy_range (Z.of_nat (length (data f)))). lia.
Qed.

Lemma chunk_length_le_data (f : frame) : (chunk_length f <= length (data f))%nat.
Proof.
  unfold chunk_length.
  pose proof (bytesToCopy_le (Z.of_nat (length (data f)))).
  pose proof (bytesToCopy_range (Z.of_nat (length (data f)))). lia.
Qed.

Lemma chunk_is_length (f : frame) : length (chunk f) = chunk_length f.
Proof.
  unfold chunk. rewrite length_firstn.
  pose proof (chunk_length_le_data f). lia.
Qed.

Lemma zero_words_bytes (bo : byte_order) :
  words_of_bytes bo (repeat Byte.x00 32) = repeat 0 8 /\
  bytes_of_words bo (repeat 0 8) = repeat Byte.x00 32.
Proof. destruct bo; split; reflexivity. Qed.

(** The block that a pass hands to the permutation. *)
Lemma prepare_block_currState (bo : byte_order) (f : frame) :
  block_shape (currState f) ->
  currState (prepare_block bo f) =
  firstn 4 currState_init ++
  words_of_bytes bo (chunk f ++ repeat Byte.x00 (32 - chunk_length f)) ++
  [u32 (u64 (counter (self f) + Z.of_nat (chunk_length f))); 0;
   u32 (nonce (self f)); 0].
Proof.
  assert (Hz : bytesToCopy (Z.of_nat (length (data f))) =
               Z.of_nat (chunk_length f)).
  { unfold chunk_length. rewrite Z2Nat.id; [reflexivity|].
    apply bytesToCopy_range. }
  unfold prepare_block, memset, memcpy.
  cbn [currState self counter nonce set_counter set_nonce].
  fold (chunk_length f). fold (chunk f). rewrite Hz. clear Hz.
  generalize (chunk_length_le_32 f) (chunk_is_length f).
  generalize (chunk_length f) (chunk f) (currState f).
  intros n ch cs Hn Hc (L & R & C & Z13 & Z15).
  change (8 * 4)%nat with 32%nat.
  rewrite (write_bytes_aligned bo cs 4 8) by
    (auto; rewrite ?repeat_length; lia).
  destruct (zero_words_bytes bo) as [Zw Zb]. rewrite Zw.
  unfold write_bytes. rewrite Hc.
  rewrite !bytes_of_words_app, Zb.
  set (A := bytes_of_words bo (firstn 4 cs)).
  set (Z := bytes_of_words bo (skipn (4 + 8) cs)).
  assert (LA : length A = 16%nat).
  { unfold A. rewrite bytes_of_words_length, length_firstn. lia. }
  rewrite firstn_app, LA. change (4 * 4 - 16)%nat with 0%nat.
  rewrite (firstn_all2 (n := (4 * 4)%nat) A) by lia.
  cbn [firstn]. rewrite app_nil_r.
  rewrite skipn_app, LA, (skipn_all2 (n := (4 * 4 + n)%nat) A) by lia.
  replace (4 * 4 + n - 16)%nat with n by lia.
  rewrite skipn_app, skipn_repeat, repeat_length.
  replace (n - 32)%nat with 0%nat by lia.
  cbn [app skipn].
  rewrite (words_of_bytes_app bo 4 A) by exact LA.
  rewrite app_assoc.
  rewrite (words_of_bytes_app bo 8)
    by (rewrite length_app, repeat_length, Hc; lia).
  unfold A, Z. rewrite !words_of_bytes_of_words
    by auto using Forall_firstn, Forall_skipn.
  assert (LP : length (words_of_bytes bo (ch ++ repeat Byte.x00 (32 - n))) = 8%nat).
  { apply words_of_bytes_length. rewrite length_app, repeat_length, Hc. lia. }
  revert LP. generalize (words_of_bytes bo (ch ++ repeat Byte.x00 (32 - n))).
  intros P LP. rewrite C. clear R C A Z LA.
  sixteen cs L.
  do 8 (destruct P as [|? P]; [discriminate LP|]).
  destruct P; [|discriminate LP].
  unfold arr_get in Z13, Z15. cbn in Z13, Z15. subst.
  reflexivity.
Qed.

(** ** Ranges *)

Lemma u32_range (z : Z) : is_u32 (u32 z).
Proof. apply Z.mod_pos_bound. reflexivity. Qed.

Lemma u64_range (z : Z) : is_u64 (u64 z).
Proof. apply Z.mod_pos_bound. reflexivity. Qed.

Lemma lxor_u32 (a b : Z) : is_u32 a -> is_u32 b -> is_u32 (Z.lxor a b).
Proof.
  unfold is_u32. intros [Ha Ha'] [Hb Hb'].
  assert (N : 0 <= Z.lxor a b) by (apply Z.lxor_nonneg; tauto).
  split; [exact N|].
  destruct (Z.eq_dec (Z.lxor a b) 0) as [E|E]; [rewrite E; reflexivity|].
  apply Z.log2_lt_pow2; [lia|].
  pose proof (Z.log2_lxor a b Ha Hb) as M.
  assert (La : Z.log2 a < 32).
  { destruct (Z.eq_dec a 0) as [->|]; [reflexivity|].
    apply Z.log2_lt_pow2; lia. }
  assert (Lb : Z.log2 b < 32).
  { destruct (Z.eq_dec b 0) as [->|]; [reflexivity|].
    apply Z.log2_lt_pow2; lia. }
  lia.
Qed.

Lemma arr_get_u32 (j : nat) (x : list Z) : Forall is_u32 x -> is_u32 (arr_get j x).
Proof.
  intros Hx. unfold arr_get.
  destruct (nth_in_or_default j x 0) as [I | ->].
  - rewrite Forall_forall in Hx. apply Hx, I.
  - unfold is_u32. lia.
Qed.

Lemma map_seq_u32 (g : nat -> Z) (n : nat) :
  (forall j, is_u32 (g j)) -> Forall is_u32 (map g (seq 0 n)).
Proof.
  intros Hg. apply Forall_forall. intros w Hw.
  apply in_map_iff in Hw. destruct Hw as [j [<- _]]. apply Hg.
Qed.

Lemma permutation_length (inp : list Z) :
  length (Reference.permutation inp) = 16%nat.
Proof. unfold Reference.permutation. rewrite length_map, length_seq. reflexivity. Qed.

Lemma permutation_u32 (inp : list Z) : Forall is_u32 (Reference.permutation inp).
Proof.
  unfold Reference.permutation. apply map_seq_u32. intros j. apply u32_range.
Qed.

Lemma lor_u32 (a b : Z) : is_u32 a -> is_u32 b -> is_u32 (Z.lor a b).
Proof.
  unfold is_u32. intros [Ha Ha'] [Hb Hb'].
  assert (N : 0 <= Z.lor a b) by (apply Z.lor_nonneg; tauto).
  split; [exact N|].
  destruct (Z.eq_dec (Z.lor a b) 0) as [E|E]; [rewrite E; reflexivity|].
  apply Z.log2_lt_pow2; [lia|].
  rewrite (Z.log2_lor a b Ha Hb).
  assert (La : Z.log2 a < 32).
  { destruct (Z.eq_dec a 0) as [->|]; [reflexivity|].
    apply Z.log2_lt_pow2; lia. }
  assert (Lb : Z.log2 b < 32).
  { destruct (Z.eq_dec b 0) as [->|]; [reflexivity|].
    apply Z.log2_lt_pow2; lia. }
  lia.
Qed.

(** For an amount in 1..31 the result is the word rotated: bit [i] of the
    result is bit [i - b], counted modulo 32, of the argument. *)
Lemma rotateLeft_is_rotation (a b : Z) :
  is_u32 a -> 1 <= b <= 31 ->
  exists r, rotateLeft a b = Some r /\ is_u32 r /\
    forall i, 0 <= i < 32 -> Z.testbit r i = Z.testbit a ((i - b) mod 32).
Proof.
  intros [A0 A1] B. rewrite rotateLeft_defined by exact B.
  exists (Reference.rotl a b). split; [reflexivity|].
  assert (High : forall n, 32 <= n -> Z.testbit a n = false).
  { intros n Hn. rewrite <- (Z.mod_small a (2 ^ 32)) by lia.
    apply Z.mod_pow2_bits_high. lia. }
  assert (Bits : forall i, 0 <= i < 32 ->
            Z.testbit (Reference.rotl a b) i = Z.testbit a ((i - b) mod 32)).
  { intros i Hi. unfold Reference.rotl, u32.
    rewrite Z.lor_spec, Z.mod_pow2_bits_low by lia.
    rewrite Z.shiftl_spec, Z.shiftr_spec by lia.
    destruct (Z_lt_ge_dec i b) as [Lt|Ge].
    - rewrite (Z.testbit_neg_r a (i - b)) by lia. cbn [orb].
      f_equal. apply (Z.mod_unique_pos (i - b) 32 (-1)); lia.
    - rewrite (High (i + (32 - b))) by lia. rewrite orb_false_r.
      rewrite Z.mod_small by lia. reflexivity. }
  split; [|exact Bits].
  unfold Reference.rotl. apply lor_u32; [apply u32_range|].
  unfold is_u32. rewrite Z.shiftr_div_pow2 by lia. split.
  - apply Z.div_pos; lia.
  - apply Z.le_lt_trans with a; [|exact A1].
    apply Z.div_le_upper_bound; [lia|].
    assert (1 <= 2 ^ (32 - b)) by (apply Z.pow_le_mono_r with (b := 0); lia).
    nia.
Qed.

(** ** The block function returns *)

Lemma chacha_block_total (out inp : list Z) :
  exists r, chacha_block out inp = Some r.
Proof.
  unfold chacha_block. rewrite rounds_reference. cbn [bind]. eauto.
Qed.

(** ** One pass through the loop *)

Lemma block_shape_init : block_shape currState_init.
Proof.
  unfold block_shape. repeat split; try reflexivity.
  unfold currState_init, is_u32. repeat constructor; lia.
Qed.

Lemma block_shape_layout (P : list Z) (a b : Z) :
  length P = 8%nat -> Forall is_u32 P -> is_u32 a -> is_u32 b ->
  let cs := firstn 4 currState_init ++ P ++ [a; 0; b; 0] in
  block_shape cs /\ firstn 8 (skipn 4 cs) = P /\
  arr_get 12 cs = a /\ arr_get 14 cs = b.
Proof.
  intros LP HP Ha Hb.
  do 8 (destruct P as [|? P]; [discriminate LP|]).
  destruct P; [|discriminate LP].
  cbv zeta. unfold block_shape. repeat split; try reflexivity.
  cbn [firstn currState_init app].
  repeat (apply Forall_cons; [first [unfold is_u32; lia | assumption | idtac]|]);
    try apply Forall_nil;
    repeat match goal with H : Forall _ (_ :: _) |- _ => inversion_clear H end;
    assumption.
Qed.

Lemma payload_words_length (bo : byte_order) (f : frame) :
  length (words_of_bytes bo (chunk f ++ repeat Byte.x00 (32 - chunk_length f)))
  = 8%nat.
Proof.
  apply words_of_bytes_length.
  rewrite length_app, repeat_length, chunk_is_length.
  pose proof (chunk_length_le_32 f). lia.
Qed.

Lemma prepare_block_shape (bo : byte_order) (f : frame) :
  block_shape (currState f) -> block_shape (currState (prepare_block bo f)).
Proof.
  intros H. rewrite prepare_block_currState by exact H.
  apply block_shape_layout;
    auto using payload_words_length, words_of_bytes_u32, u32_range.
Qed.

Lemma prepare_block_frame_ok (bo : byte_order) (f : frame) :
  frame_ok f -> frame_ok (prepare_block bo f).
Proof.
  intros [H L]. split; [apply prepare_block_shape; exact H | exact L].
Qed.

(** The object after the accumulation of the block [out]. *)
Lemma absorb_block_inv (f f' : frame) :
  absorb_block f = Some f' ->
  exists out,
    chacha_block (outputBlock f) (currState f) = Some out /\
    currState f' = currState f /\ outputBlock f' = out /\ data f' = data f /\
    counter (self f') = counter (self f) /\ nonce (self f') = nonce (self f) /\
    initialized (self f') = true /\
    state (self f') =
      if initialized (self f) then
        for_each16
          (fun j st => arr_set j (Z.lxor (arr_get j st) (arr_get j out)) st)
          (state (self f))
      else out.
Proof.
  unfold absorb_block. intros H.
  apply bind_Some in H. destruct H as [out [E H]].
  exists out. split; [exact E|].
  injection H as <-. cbv zeta. cbn [currState outputBlock data self].
  destruct (initialized (self f)) eqn:I;
    cbn [negb self state counter nonce initialized set_state set_initialized];
    repeat split; try reflexivity; exact I.
Qed.

Lemma update_body_total (bo : byte_order) (f : frame) :
  exists f', update_body bo f = Some f'.
Proof.
  unfold update_body, absorb_block.
  destruct (chacha_block_total (outputBlock (prepare_block bo f))
              (currState (prepare_block bo f))) as [out E].
  rewrite E. cbn [bind]. eauto.
Qed.

Lemma update_body_inv (bo : byte_order) (f f' : frame) :
  update_body bo f = Some f' ->
  exists out,
    chacha_block (outputBlock f) (currState (prepare_block bo f)) = Some out /\
    currState f' = currState (prepare_block bo f) /\
    outputBlock f' = out /\ data f' = skipn 32 (data f) /\
    counter (self f') = u64 (counter (self f) + Z.of_nat (chunk_length f)) /\
    nonce (self f') = u64 (nonce (self f) + 1) /\
    initialized (self f') = true /\
    state (self f') =
      if initialized (self f) then
        for_each16
          (fun j st => arr_set j (Z.lxor (arr_get j st) (arr_get j out)) st)
          (state (self f))
      else out.
Proof.
  unfold update_body. intros H.
  apply bind_Some in H. destruct H as [g [A H]]. injection H as <-.
  apply absorb_block_inv in A.
  destruct A as (out & E & Hcs & Ho & Hd & Hc & Hn & Hi & Hs).
  exists out. cbn [advance currState outputBlock data self].
  rewrite Hcs, Ho, Hd, Hc, Hn, Hi, Hs.
  unfold chunk_length. rewrite Z2Nat.id by apply bytesToCopy_range.
  repeat split; auto.
Qed.

Lemma chacha_block_length (out inp r : list Z) :
  chacha_block out inp = Some r -> length r = length out.
Proof.
  unfold chacha_block. rewrite rounds_reference. cbn [bind].
  intros H. apply Some_inj in H. subst r.
  apply for_each16_length. intros i a. apply arr_set_length.
Qed.

Lemma update_body_frame_ok (bo : byte_order) (f f' : frame) :
  frame_ok f -> update_body bo f = Some f' -> frame_ok f'.
Proof.
  intros [Hs Ho] H. apply update_body_inv in H.
  destruct H as (out & E & Hcs & Hout & _).
  split.
  - rewrite Hcs. apply prepare_block_shape. exact Hs.
  - rewrite Hout, (chacha_block_length _ _ _ E). exact Ho.
Qed.

(** The block that comes back and the state it is folded into. *)
Lemma update_body_state (bo : byte_order) (f f' : frame) :
  frame_ok f -> length (state (self f)) = 16%nat ->
  update_body bo f = Some f' ->
  let out := Reference.permutation (currState (prepare_block bo f)) in
  outputBlock f' = out /\
  state (self f') =
    if initialized (self f) then
      map (fun j => Z.lxor (arr_get j (state (self f))) (arr_get j out)) (seq 0 16)
    else out.
Proof.
  intros [Hs Ho] L H. apply update_body_inv in H.
  destruct H as (out & E & _ & Hout & _ & _ & _ & _ & Hst).
  rewrite chacha_block_reference_gen in E;
    [|exact Ho | apply prepare_block_shape; exact Hs].
  apply Some_inj in E. subst out. cbv zeta. split; [exact Hout|].
  rewrite Hst. destruct (initialized (self f)); [|reflexivity].
  apply (for_each16_modify (fun j v => Z.lxor v (arr_get j _))). exact L.
Qed.

Lemma update_body_CCSH_ok (bo : byte_order) (f f' : frame) :
  frame_ok f -> CCSH_ok (self f) -> update_body bo f = Some f' ->
  CCSH_ok (self f').
Proof.
  intros Hf (L & R & _ & _) H.
  destruct (update_body_state bo f f' Hf L H) as [_ Hst].
  apply update_body_inv in H.
  destruct H as (out & _ & _ & _ & _ & Hc & Hn & _ & _).
  unfold CCSH_ok. rewrite Hst, Hc, Hn.
  destruct (initialized (self f)).
  - rewrite length_map, length_seq.
    repeat split; try apply u64_range.
    apply map_seq_u32. intros j. apply lxor_u32; apply arr_get_u32;
      [exact R | apply permutation_u32].
  - rewrite permutation_length.
    repeat split; try apply u64_range. apply permutation_u32.
Qed.

(** ** The loop *)

Lemma iterates_front (bo : byte_order) (f f1 f' : frame) :
  data f <> [] -> update_body bo f = Some f1 -> iterates bo f1 f' ->
  iterates bo f f'.
Proof.
  intros Hd Hb H. induction H as [|g g' Hg IH Hgd Hgb].
  - eapply iterates_body; [apply iterates_enter | exact Hd | exact Hb].
  - eapply iterates_body; eauto.
Qed.

Lemma iterates_frame_ok (bo : byte_order) (f0 f : frame) :
  frame_ok f0 -> iterates bo f0 f -> frame_ok f.
Proof.
  intros H0 H. induction H as [|g g' Hg IH Hgd Hgb]; [exact H0|].
  eapply update_body_frame_ok; eauto.
Qed.

Lemma update_enter_frame_ok (this : CCSH) (bytes : list byte) :
  frame_ok (update_enter this bytes).
Proof. split; [apply block_shape_init | reflexivity]. Qed.

(** The loop ends, with the fuel that [update] gives it, in a frame with no
    input left that the passes through the body lead to. *)
Lemma update_loop_total (bo : byte_order) (fuel : nat) (f : frame) :
  (length (data f) <= fuel)%nat ->
  exists f', update_loop bo fuel f = Some f' /\ data f' = [] /\
             iterates bo f f'.
Proof.
  revert f. induction fuel as [|fuel IH]; intros f Hfuel.
  - destruct (data f) as [|b tl] eqn:E; [|simpl in Hfuel; lia].
    exists f. unfold update_loop. rewrite E.
    repeat split; auto using iterates_enter.
  - cbn [update_loop]. destruct (data f) as [|b tl] eqn:E.
    + exists f. repeat split; auto using iterates_enter.
    + destruct (update_body_total bo f) as [f1 Hb]. rewrite Hb. cbn [bind].
      pose proof (update_body_inv bo f f1 Hb) as (_ & _ & _ & _ & Hd & _).
      destruct (IH f1) as (f' & Hl & Hd' & Hit).
      { rewrite Hd, length_skipn, E. simpl in *. lia. }
      exists f'. split; [exact Hl | split; [exact Hd'|]].
      eapply iterates_front; eauto. rewrite E. discriminate.
Qed.

Lemma update_total (bo : byte_order) (this : CCSH) (bytes : list byte) :
  exists f, update_loop bo (length bytes) (update_enter this bytes) = Some f /\
            data f = [] /\ iterates bo (update_enter this bytes) f /\
            update bo this bytes = Some (self f).
Proof.
  destruct (update_loop_total bo (length bytes) (update_enter this bytes))
    as (f & Hl & Hd & Hit); [reflexivity|].
  exists f. unfold update. rewrite Hl. auto.
Qed.

(** ** The digest text *)

Lemma hex_digit_lower (d : Z) : is_lower_hex (hex_digit d) = true.
Proof.
  unfold hex_digit.
  destruct (Z.to_nat d) as [|[|[|[|[|[|[|[|[|[|[|[|[|[|[|[|n]]]]]]]]]]]]]]]];
    try reflexivity.
  cbn. destruct n; reflexivity.
Qed.

Lemma nibble_0 (w : Z) : nibble w 0 = w mod 16.
Proof. unfold nibble. cbn [Z.of_nat]. rewrite Z.pow_0_r, Z.div_1_r. reflexivity. Qed.

Lemma nibble_S (w : Z) (k : nat) : nibble w (S k) = nibble (w / 16) k.
Proof.
  unfold nibble. rewrite Nat2Z.inj_succ, Z.pow_succ_r by lia.
  rewrite Z.div_div by lia. reflexivity.
Qed.

(** Eight digits are what the stream prints for a word, the padding
    included. *)
Lemma put_hex_hex8 (w : Z) : is_u32 w -> put_hex 8 "0"%char w = hex8 w.
Proof.
  intros [H0 H1]. unfold put_hex, hex8.
  cbn [map string_of_list_ascii].
  rewrite !nibble_S, !nibble_0.
  assert (H8 : w / 16 / 16 / 16 / 16 / 16 / 16 / 16 / 16 = 0).
  { rewrite !Z.div_div by lia. apply Z.div_small. split; [exact H0|].
    exact H1. }
  cbn [hex_digits].
  repeat match goal with
  | |- context [if (?v =? 0) then _ else _] =>
      let T := fresh "T" in
      destruct (v =? 0) eqn:T;
      [apply Z.eqb_eq in T; rewrite ?T, ?Zdiv_0_l, ?Zmod_0_l; reflexivity|]
  end.
  reflexivity.
Qed.

Lemma hex8_length (w : Z) : String.length (hex8 w) = 8%nat.
Proof. reflexivity. Qed.

Lemma string_forall_app (p : ascii -> bool) (s t : string) :
  string_forall p (s ++ t) = string_forall p s && string_forall p t.
Proof.
  induction s as [|c s IH]; [reflexivity|].
  cbn [append string_forall]. rewrite IH. apply andb_assoc.
Qed.

Lemma hex8_lower (w : Z) : string_forall is_lower_hex (hex8 w) = true.
Proof.
  unfold hex8. cbn [map string_of_list_ascii string_forall].
  rewrite !hex_digit_lower. reflexivity.
Qed.

Lemma string_length_app (s t : string) :
  String.length (s ++ t) = (String.length s + String.length t)%nat.
Proof.
  induction s as [|c s IH]; [reflexivity|].
  cbn [append String.length]. rewrite IH. reflexivity.
Qed.

Lemma string_app_assoc (s t u : string) :
  ((s ++ t) ++ u = s ++ (t ++ u))%string.
Proof.
  induction s as [|c s IH]; [reflexivity|].
  cbn [append]. rewrite IH. reflexivity.
Qed.

(** [hexdump] writes the sixteen words, eight digits each. *)
Lemma hexdump_digest_text (this : CCSH) :
  Forall is_u32 (state this) -> hexdump this = digest_text (state this).
Proof.
  intros H. unfold hexdump, digest_text.
  cbn [seq fold_left map String.concat].
  rewrite !put_hex_hex8 by (apply arr_get_u32; exact H).
  generalize (state this). intros st.
  repeat match goal with
  | |- context [hex8 ?w] =>
      let c := fresh "h" in
      generalize (hex8 w); intros c
  end.
  cbn [append]. rewrite !string_app_assoc. reflexivity.
Qed.

(** ** Calls *)

Lemma iterates_CCSH_ok (bo : byte_order) (f0 f : frame) :
  frame_ok f0 -> CCSH_ok (self f0) -> iterates bo f0 f -> CCSH_ok (self f).
Proof.
  intros H0 K0 H. induction H as [|g g' Hg IH Hgd Hgb]; [exact K0|].
  eapply update_body_CCSH_ok; [|exact IH|exact Hgb].
  eapply iterates_frame_ok; eauto.
Qed.

Lemma iterates_state_length (bo : byte_order) (f0 f : frame) :
  frame_ok f0 -> length (state (self f0)) = 16%nat -> iterates bo f0 f ->
  length (state (self f)) = 16%nat.
Proof.
  intros H0 K0 H. induction H as [|g g' Hg IH Hgd Hgb]; [exact K0|].
  assert (Fg : frame_ok g) by (eapply iterates_frame_ok; eauto).
  destruct (update_body_state bo g g' Fg IH Hgb) as [_ E]. rewrite E.
  destruct (initialized (self g)).
  - rewrite length_map, length_seq. reflexivity.
  - apply permutation_length.
Qed.

Lemma update_CCSH_ok (bo : byte_order) (this this' : CCSH) (bytes : list byte) :
  CCSH_ok this -> update bo this bytes = Some this' -> CCSH_ok this'.
Proof.
  intros K H.
  destruct (update_total bo this bytes) as (f & _ & _ & Hit & E).
  rewrite E in H. apply Some_inj in H. subst this'.
  eapply iterates_CCSH_ok; [apply update_enter_frame_ok | exact K | exact Hit].
Qed.

Lemma CCSH_new_ok : CCSH_ok CCSH_new.
Proof.
  unfold CCSH_ok, CCSH_new, is_u64. cbn [state counter nonce].
  repeat split; try lia. unfold is_u32. repeat constructor; lia.
Qed.

(** [start] forgets the object it is called on. *)
Lemma start_resets (bo : byte_order) (this : CCSH) (bytes : list byte) :
  length (state this) = 16%nat ->
  start bo this bytes = update bo CCSH_new bytes.
Proof.
  intros L. unfold start, CCSH_new. f_equal.
  unfold set_initialized, set_nonce, set_counter, set_state.
  cbn [state counter nonce initialized]. f_equal.
  remember (state this) as st eqn:E. clear E. sixteen st L. reflexivity.
Qed.

Lemma start_total (bo : byte_order) (this : CCSH) (bytes : list byte) :
  exists this', start bo this bytes = Some this'.
Proof.
  unfold start.
  destruct (update_total bo
    (set_initialized false (set_nonce 0 (set_counter 0
       (set_state (map (fun _ => 0) (state this)) this)))) bytes)
    as (f & _ & _ & _ & E).
  cbv zeta. rewrite E. eauto.
Qed.

Lemma start_CCSH_ok (bo : byte_order) (this this' : CCSH) (bytes : list byte) :
  CCSH_ok this -> start bo this bytes = Some this' -> CCSH_ok this'.
Proof.
  intros (L & _) H. rewrite start_resets in H by exact L.
  eapply update_CCSH_ok; [apply CCSH_new_ok | exact H].
Qed.

Lemma exec_CCSH_ok (bo : byte_order) (c : call) (this this' : CCSH)
    (r : option string) :
  CCSH_ok this -> exec bo c this = Some (this', r) -> CCSH_ok this'.
Proof.
  intros K H. destruct c as [bytes|bytes|]; cbn [exec] in H.
  - apply bind_Some in H. destruct H as [s [E H]].
    apply Some_inj in H. injection H as <- _. eapply start_CCSH_ok; eauto.
  - apply bind_Some in H. destruct H as [s [E H]].
    apply Some_inj in H. injection H as <- _. eapply update_CCSH_ok; eauto.
  - apply Some_inj in H. injection H as <- _. exact K.
Qed.

Lemma run_CCSH_ok (bo : byte_order) (cs : list call) (this this' : CCSH)
    (rs : list string) :
  CCSH_ok this -> run bo cs this = Some (this', rs) -> CCSH_ok this'.
Proof.
  revert this rs. induction cs as [|c cs IH]; intros this rs K H.
  - cbn [run] in H. apply Some_inj in H. injection H as <- _. exact K.
  - cbn [run] in H. apply bind_Some in H. destruct H as [[s r] [E H]].
    apply bind_Some in H. destruct H as [[s' rs'] [E' H]].
    apply Some_inj in H. injection H as <- _.
    eapply IH; [|exact E']. eapply exec_CCSH_ok; eauto.
Qed.

Lemma reachable_ok (bo : byte_order) (this : CCSH) :
  reachable bo this -> CCSH_ok this.
Proof.
  intros (cs & rs & H). eapply run_CCSH_ok; [apply CCSH_new_ok | exact H].
Qed.

Lemma chunk_below_256 (f : frame) :
  (length (data f) < 256)%nat -> chunk f = firstn 32 (data f).
Proof.
  intros H. unfold chunk, chunk_length.
  rewrite bytesToCopy_below_256 by lia.
  destruct (Z.min_spec (Z.of_nat (length (data f))) 32) as [[A ->] | [A ->]].
  - rewrite Nat2Z.id. rewrite !firstn_all2 by lia. reflexivity.
  - reflexivity.
Qed.

(** ** The passes of one call *)

Lemma u64_add_l (x y : Z) : u64 (u64 x + y) = u64 (x + y).
Proof. unfold u64. apply Z.add_mod_idemp_l. lia. Qed.

Lemma u64_small (x : Z) : is_u64 x -> u64 x = x.
Proof. intros H. apply Z.mod_small. exact H. Qed.

Lemma data_nonempty_length (f : frame) : data f <> [] -> (0 < length (data f))%nat.
Proof. destruct (data f); [congruence | simpl; lia]. Qed.

(** The frame after [k] passes: the read position is [32 * k] bytes into
    the input and the nonce has moved [k] times. *)
Lemma iterates_passes (bo : byte_order) (this : CCSH) (bytes : list byte)
    (f : frame) :
  is_u64 (nonce this) -> iterates bo (update_enter this bytes) f ->
  exists k : nat,
    data f = skipn (32 * k) bytes /\ (32 * k < length bytes + 32)%nat /\
    nonce (self f) = u64 (nonce this + Z.of_nat k).
Proof.
  intros N H. induction H as [|g g' Hg IH Hgd Hgb].
  - exists 0%nat. cbn [update_enter data self Nat.mul skipn].
    rewrite Z.add_0_r, u64_small by exact N. repeat split; lia.
  - destruct IH as (k & Hd & Hk & Hn).
    destruct (update_body_inv bo g g' Hgb) as (_ & _ & _ & _ & Hd' & _ & Hn' & _).
    exists (S k). pose proof (data_nonempty_length g Hgd) as P.
    rewrite Hd, length_skipn in P.
    split; [|split].
    + rewrite Hd', Hd, skipn_skipn. f_equal. lia.
    + lia.
    + rewrite Hn', Hn, u64_add_l. f_equal. lia.
Qed.

(** On an input of fewer than 256 bytes, the counter after [k] passes
    has moved by the bytes up to the read position, and the next chunk is
    the next 32 bytes or all that is left. *)
Lemma iterates_counter_below_256 (bo : byte_order) (this : CCSH)
    (bytes : list byte) (f : frame) :
  (length bytes < 256)%nat -> is_u64 (counter this) ->
  iterates bo (update_enter this bytes) f ->
  exists k : nat,
    data f = skipn (32 * k) bytes /\
    counter (self f) =
      u64 (counter this + Z.of_nat (Nat.min (32 * k) (length bytes))) /\
    chunk f = firstn 32 (skipn (32 * k) bytes).
Proof.
  intros L C H. induction H as [|g g' Hg IH Hgd Hgb].
  - exists 0%nat. cbn [update_enter data self Nat.mul skipn Nat.min].
    rewrite Z.add_0_r, u64_small by exact C.
    split; [reflexivity | split; [reflexivity|]].
    apply chunk_below_256. exact L.
  - destruct IH as (k & Hd & Hc & Hch).
    destruct (update_body_inv bo g g' Hgb) as (_ & _ & _ & _ & Hd' & Hc' & _).
    exists (S k). pose proof (data_nonempty_length g Hgd) as P.
    rewrite Hd, length_skipn in P.
    assert (D : data g' = skipn (32 * S k) bytes).
    { rewrite Hd', Hd, skipn_skipn. f_equal. lia. }
    split; [exact D|]. split.
    + rewrite Hc', Hc, u64_add_l. f_equal.
      rewrite <- (chunk_is_length g), Hch, length_firstn, length_skipn. lia.
    + rewrite <- D. apply chunk_below_256.
      rewrite D, length_skipn. lia.
Qed.

(** Below 256 bytes the counter after [start] is the length of the
    input. *)
Lemma start_counter_below_256 (bo : byte_order) (this this' : CCSH)
    (bytes : list byte) :
  (length bytes < 256)%nat -> start bo this bytes = Some this' ->
  counter this' = Z.of_nat (length bytes).
Proof.
  intros L H. unfold start in H. cbv zeta in H.
  match type of H with update bo ?s bytes = _ =>
    destruct (update_total bo s bytes) as (f & _ & Hd & Hit & E);
    destruct (iterates_counter_below_256 bo s bytes f L) as (k & Hk & Hc & _);
    [cbn; unfold is_u64; lia | exact Hit |]
  end.
  rewrite E in H. apply Some_inj in H. subst this'.
  rewrite Hc. cbn [counter set_initialized set_nonce set_counter].
  rewrite Hd in Hk. symmetry in Hk.
  apply (f_equal (@length byte)) in Hk. rewrite length_skipn in Hk.
  cbn [length] in Hk.
  replace (Nat.min (32 * k) (length bytes)) with (length bytes) by lia.
  apply u64_small. unfold is_u64.
  split; [lia|]. apply Z.lt_trans with 256; [lia | reflexivity].
Qed.

(** The nonce after a call has moved once for every 32 bytes of the input,
    a last shorter piece included. *)
Lemma update_nonce (bo : byte_order) (this this' : CCSH) (bytes : list byte) :
  is_u64 (nonce this) -> update bo this bytes = Some this' ->
  nonce this' = u64 (nonce this + Z.of_nat ((length bytes + 31) / 32)).
Proof.
  intros N H.
  destruct (update_total bo this bytes) as (f & _ & Hd & Hit & E).
  rewrite E in H. apply Some_inj in H. subst this'.
  destruct (iterates_passes bo this bytes f N Hit) as (k & Hk & Hlt & Hn).
  rewrite Hn. do 3 f_equal.
  rewrite Hd in Hk. symmetry in Hk.
  apply (f_equal (@length byte)) in Hk. rewrite length_skipn in Hk.
  cbn [length] in Hk.
  apply (Nat.div_unique _ 32 k (length bytes + 31 - 32 * k)); lia.
Qed.

(** ** One call or two *)

Lemma update_loop_fuel (bo : byte_order) (fuel1 fuel2 : nat) (f : frame) :
  (length (data f) <= fuel1)%nat -> (length (data f) <= fuel2)%nat ->
  update_loop bo fuel1 f = update_loop bo fuel2 f.
Proof.
  revert fuel2 f. induction fuel1 as [|a IH]; intros fuel2 f H1 H2.
  - destruct (data f) as [|x tl] eqn:E; [|cbn [length] in H1; lia].
    destruct fuel2; unfold update_loop; rewrite E; reflexivity.
  - destruct (data f) as [|x tl] eqn:E.
    + destruct fuel2; unfold update_loop; rewrite E; reflexivity.
    + destruct fuel2 as [|b]; [cbn [length] in H2; lia|].
      cbn [update_loop]. rewrite E.
      destruct (update_body bo f) as [f1|] eqn:Hb; [|reflexivity].
      cbn [bind].
      destruct (update_body_inv bo f f1 Hb) as (_ & _ & _ & _ & Hd & _).
      cbn [length] in H1, H2.
      apply IH; rewrite Hd, length_skipn, E; cbn [length]; lia.
Qed.

(** Two frames with the same object and the same chunk go through the
    body alike, whatever [currState] and [outputBlock] hold from before. *)
Lemma update_body_same_chunk (bo : byte_order) (f g : frame) :
  frame_ok f -> frame_ok g -> self f = self g -> chunk f = chunk g ->
  exists f' g',
    update_body bo f = Some f' /\ update_body bo g = Some g' /\
    self f' = self g' /\ currState f' = currState g' /\
    outputBlock f' = outputBlock g' /\
    data f' = skipn 32 (data f) /\ data g' = skipn 32 (data g).
Proof.
  intros Ff Fg Hs Hc.
  assert (Hl : chunk_length f = chunk_length g).
  { rewrite <- !chunk_is_length, Hc. reflexivity. }
  assert (Lf : length (state (self f)) = length (state (self g)))
    by (rewrite Hs; reflexivity).
  pose proof (prepare_block_currState bo f (proj1 Ff)) as Cf.
  pose proof (prepare_block_currState bo g (proj1 Fg)) as Cg.
  rewrite <- Hs, <- Hc, <- Hl, <- Cf in Cg.
  destruct (update_body_total bo f) as [f' Hf].
  destruct (update_body_total bo g) as [g' Hg].
  exists f', g'. split; [exact Hf | split; [exact Hg|]].
  destruct (update_body_inv bo f f' Hf)
    as (o1 & E1 & Hcs1 & Ho1 & Hd1 & Hc1 & Hn1 & Hi1 & Hst1).
  destruct (update_body_inv bo g g' Hg)
    as (o2 & E2 & Hcs2 & Ho2 & Hd2 & Hc2 & Hn2 & Hi2 & Hst2).
  rewrite Cg in E2.
  rewrite chacha_block_reference_gen in E1, E2;
    try (apply prepare_block_shape; apply Ff);
    try apply Ff; try apply Fg.
  apply Some_inj in E1, E2. subst o1 o2.
  rewrite <- Hs, <- Hl in Hc2. rewrite <- Hs in Hn2, Hst2.
  rewrite <- Hst1 in Hst2. rewrite <- Hc1 in Hc2. rewrite <- Hn1 in Hn2.
  rewrite <- Hi1 in Hi2.
  repeat split; try assumption; try congruence.
  destruct (self f') as [s1 c1 n1 i1], (self g') as [s2 c2 n2 i2].
  cbn [state counter nonce initialized] in Hst2, Hc2, Hn2, Hi2.
  rewrite Hst2, Hc2, Hn2, Hi2. reflexivity.
Qed.

Lemma chunk_same_data (f g : frame) : data f = data g -> chunk f = chunk g.
Proof. intros H. unfold chunk, chunk_length. rewrite H. reflexivity. Qed.

Lemma update_body_indep (bo : byte_order) (f g : frame) :
  frame_ok f -> frame_ok g -> self f = self g -> data f = data g ->
  update_body bo f = update_body bo g.
Proof.
  intros Ff Fg Hs Hd.
  destruct (update_body_same_chunk bo f g Ff Fg Hs (chunk_same_data f g Hd))
    as (f' & g' & Hf & Hg & E1 & E2 & E3 & E4 & E5).
  rewrite Hf, Hg. f_equal.
  destruct f' as [a1 b1 c1 d1], g' as [a2 b2 c2 d2].
  cbn [self currState outputBlock data] in E1, E2, E3, E4, E5.
  rewrite E1, E2, E3, E4, E5, Hd. reflexivity.
Qed.

Lemma update_loop_indep (bo : byte_order) (fuel : nat) (f g : frame) :
  frame_ok f -> frame_ok g -> self f = self g -> data f = data g ->
  option_map self (update_loop bo fuel f) =
  option_map self (update_loop bo fuel g).
Proof.
  intros Ff Fg Hs Hd.
  pose proof (update_body_indep bo f g Ff Fg Hs Hd) as Hb.
  destruct fuel as [|n]; cbn [update_loop]; rewrite <- Hd;
    destruct (data f) as [|x tl]; cbn [option_map]; congruence.
Qed.

Lemma update_loop_concat (bo : byte_order) (k : nat) :
  forall (B1 B2 : list byte) (f g : frame),
    length B1 = (32 * k)%nat -> (length (B1 ++ B2) < 256)%nat ->
    frame_ok f -> frame_ok g -> self f = self g ->
    data f = B1 ++ B2 -> data g = B1 ->
    exists g1,
      update_loop bo (length B1) g = Some g1 /\
      option_map self (update_loop bo (length (B1 ++ B2)) f) =
      option_map self (update_loop bo (length B2) (update_enter (self g1) B2)).
Proof.
  induction k as [|k IH]; intros B1 B2 f g L1 L Ff Fg Hs Hf Hg.
  - destruct B1; [|discriminate L1]. cbn [app length] in *.
    exists g. split.
    + unfold update_loop. rewrite Hg. reflexivity.
    + apply update_loop_indep; auto using update_enter_frame_ok.
  - rewrite length_app in L.
    assert (Cf : chunk f = firstn 32 B1).
    { rewrite chunk_below_256 by (rewrite Hf, length_app; lia).
      rewrite Hf, firstn_app. replace (32 - length B1)%nat with 0%nat by lia.
      cbn [firstn]. apply app_nil_r. }
    assert (Cg : chunk g = firstn 32 B1).
    { rewrite chunk_below_256 by (rewrite Hg; lia). rewrite Hg. reflexivity. }
    destruct (update_body_same_chunk bo f g Ff Fg Hs (eq_trans Cf (eq_sym Cg)))
      as (f' & g' & Bf & Bg & E1 & _ & _ & Df & Dg).
    assert (Df' : data f' = skipn 32 B1 ++ B2).
    { rewrite Df, Hf, skipn_app.
      replace (32 - length B1)%nat with 0%nat by lia. reflexivity. }
    rewrite Hg in Dg.
    assert (Ff' : frame_ok f') by exact (update_body_frame_ok bo f f' Ff Bf).
    assert (Fg' : frame_ok g') by exact (update_body_frame_ok bo g g' Fg Bg).
    assert (L1' : length (skipn 32 B1) = (32 * k)%nat)
      by (rewrite length_skipn; lia).
    assert (L' : (length (skipn 32 B1 ++ B2) < 256)%nat)
      by (rewrite length_app, length_skipn; lia).
    destruct (IH (skipn 32 B1) B2 f' g' L1' L' Ff' Fg' E1 Df' Dg)
      as (g1 & G1 & G2).
    exists g1. split.
    + rewrite L1. cbn [update_loop Nat.mul Nat.add].
      rewrite Hg. destruct B1 as [|x B1']; [discriminate L1|].
      rewrite Bg. cbn [bind].
      rewrite <- G1. apply update_loop_fuel;
        rewrite Dg, length_skipn; cbn [length] in *; lia.
    + rewrite <- G2. f_equal.
      rewrite length_app, L1. cbn [update_loop Nat.mul Nat.add].
      rewrite Hf. destruct B1 as [|x B1']; [discriminate L1|].
      cbn [app]. rewrite Bf. cbn [bind].
      apply update_loop_fuel;
        rewrite Df', !length_app, !length_skipn; cbn [length] in *; lia.
Qed.

(** Below 256 bytes in all, a call on [B1] followed by a call on [B2] is
    the call on [B1 ++ B2] when the length of [B1] is a multiple of 32. *)
Lemma update_concat_below_256 (bo : byte_order) (this : CCSH)
    (B1 B2 : list byte) (k : nat) :
  length B1 = (32 * k)%nat -> (length (B1 ++ B2) < 256)%nat ->
  update bo this (B1 ++ B2) = (s <- update bo this B1 ;; update bo s B2).
Proof.
  intros L1 L.
  destruct (update_loop_concat bo k B1 B2
              (update_enter this (B1 ++ B2)) (update_enter this B1))
    as (g1 & G1 & G2); auto using update_enter_frame_ok.
  unfold update at 2. rewrite G1. cbn [bind].
  unfold update. 
  destruct (update_loop bo (length (B1 ++ B2)) (update_enter this (B1 ++ B2)));
    destruct (update_loop bo (length B2) (update_enter (self g1) B2));
    cbn [option_map bind] in *; congruence.
Qed.

(** * The block function *)

(** The block function on the test vector of RFC 8439, section 2.3.2. *)
Example chacha_block_rfc8439 :
  chacha_block (repeat 0 16)
    [0x61707865; 0x3320646e; 0x79622d32; 0x6b206574;
     0x03020100; 0x07060504; 0x0b0a0908; 0x0f0e0d0c;
     0x13121110; 0x17161514; 0x1b1a1918; 0x1f1e1d1c;
     0x00000001; 0x09000000; 0x4a000000; 0x00000000] =
  Some
    [0xe4e7f110; 0x15593bd1; 0x1fdd0f50; 0xc47120a3;
     0xc7f4d1c7; 0x0368c033; 0x9aaa2204; 0x4e6cd4c3;
     0x466482d2; 0x09aa9f07; 0x05d7c214; 0xa2028bd9;
     0xd19c12b5; 0xb94e16de; 0xe883d0cb; 0x4e3c50a2].
Proof. vm_compute. reflexivity. Qed.

(** The quarter round on the test vector of RFC 8439, section 2.1.1. *)
Example quarterRound_rfc8439 :
  quarterRound (0x11111111, 0x01020304, 0x9b8d6f43, 0x01234567) =
  Some (0xea2a92f4, 0xcb1cf8ce, 0x4581472e, 0x5881c4bb).
Proof. vm_compute. reflexivity. Qed.

(** C3. For every input block of sixteen words, [chacha_block] returns, in
    its output array, the permutation of the specification: the input is
    copied into the working registers, ten double rounds run on them (the
    quarter rounds on the four columns, then on the four diagonals, each
    quarter round being the four add, xor, rotate steps with the amounts
    16, 12, 8, 7 and additions modulo [2 ^ 32]), and word [i] of the output
    is register [i] plus word [i] of the input modulo [2 ^ 32]. *)
Theorem chacha_block_reference (out inp : list Z) :
  length out = 16%nat -> length inp = 16%nat ->
  chacha_block out inp = Some (Reference.permutation inp) /\
  length (Reference.permutation inp) = 16%nat /\
  forall i, (i < 16)%nat ->
    arr_get i (Reference.permutation inp) =
    u32 (arr_get i (Nat.iter 10 Reference.double inp) + arr_get i inp).
Proof.
  intros Hout Hinp. split; [|split].
  - apply chacha_block_reference_gen; assumption.
  - apply permutation_length.
  - intros i Hi. unfold Reference.permutation.
    generalize (Nat.iter 10 Reference.double inp). intros x.
    do 16 (destruct i as [|i]; [reflexivity|]). lia.
Qed.

Lemma chacha_block_reference_witness :
  length (repeat 0 16) = 16%nat /\ length currState_init = 16%nat /\
  (chacha_block (repeat 0 16) currState_init =
     Some (Reference.permutation currState_init) /\
   length (Reference.permutation currState_init) = 16%nat /\
   forall i, (i < 16)%nat ->
     arr_get i (Reference.permutation currState_init) =
     u32 (arr_get i (Nat.iter 10 Reference.double currState_init) +
          arr_get i currState_init)).
Proof.
  split; [reflexivity | split; [reflexivity|]].
  apply (chacha_block_reference (repeat 0 16) currState_init); reflexivity.
Defined.

(** C10. Every call of [rotateLeft] that [quarterRound] makes has one of
    the amounts 16, 12, 8, 7: the quarter round is the same, and returns,
    when the rotation is undefined for every other amount.  These amounts
    lie in 1..31, where neither shift of [rotateLeft] is by 32 or more and
    the result is the two shifted parts put together; for an amount of 0
    or of 32 and more the rotation is undefined.  So the block function
    and [update], which reach [rotateLeft] through [quarterRound] only,
    return on every input. *)
Theorem quarterRound_rotation_amounts :
  (forall q, quarterRound_with (rotateLeft_on [16; 12; 8; 7]) q = quarterRound q) /\
  (forall q, exists r, quarterRound q = Some r) /\
  (forall b, In b [16; 12; 8; 7] -> 1 <= b <= 31) /\
  (forall a b, 1 <= b <= 31 ->
     exists hi lo, shl32 a b = Some hi /\ shr32 a (u32 (32 - b)) = Some lo /\
                   rotateLeft a b = Some (Z.lor hi lo)) /\
  (forall a b, is_u32 b -> ~ 1 <= b <= 31 -> rotateLeft a b = None) /\
  (forall out inp, exists r, chacha_block out inp = Some r) /\
  (forall bo this bytes, exists this', update bo this bytes = Some this').
Proof.
  split; [|split; [|split; [|split; [|split; [|split]]]]].
  - intros [[[a b] c] d]. reflexivity.
  - intros q. rewrite quarterRound_reference. eauto.
  - intros b H. cbn [In] in H. lia.
  - intros a b H. unfold rotateLeft, shl32, shr32.
    replace (u32 (32 - b)) with (32 - b)
      by (unfold u32; rewrite Z.mod_small; lia).
    replace (b <? 32) with true by (symmetry; apply Z.ltb_lt; lia).
    replace (32 - b <? 32) with true by (symmetry; apply Z.ltb_lt; lia).
    cbn [bind]. eauto.
  - intros a b [H0 H1] H. unfold rotateLeft, shl32, shr32.
    destruct (Z.eq_dec b 0) as [->|N].
    + reflexivity.
    + replace (b <? 32) with false by (symmetry; apply Z.ltb_ge; lia).
      reflexivity.
  - apply chacha_block_total.
  - intros bo this bytes.
    destruct (update_total bo this bytes) as (f & _ & _ & _ & E). eauto.
Qed.

(** * The input of the permutation *)

(** The first block that [update] builds for a one-byte input does not
    start with the words of "expand 32-byte k" in little-endian order,
    [0x61707865], [0x3320646E], [0x79622D32], [0x6B206574]. *)
Lemma constant_words_not_little_endian :
  let f := update_enter CCSH_new [Byte.x00] in
  iterates LittleEndian f f /\ data f <> [] /\
  pack_le "expand 32-byte k" =
    [0x61707865; 0x3320646E; 0x79622D32; 0x6B206574] /\
  firstn 4 (currState (prepare_block LittleEndian f)) <>
    [0x61707865; 0x3320646E; 0x79622D32; 0x6B206574].
Proof.
  cbv zeta. split; [apply iterates_enter|].
  split; [discriminate|]. split; [reflexivity|].
  rewrite prepare_block_currState by apply block_shape_init.
  cbn [firstn currState_init app]. discriminate.
Qed.

(** C2, as the code has it. In every block that [update] hands to the
    permutation, the words 0 to 3 are [0x65787061], [0x6E642033],
    [0x32206279], [0x7465206B]: the sixteen characters "expand 32 byte k",
    with a space between "32" and "byte", four to a word and the first of
    each four in the most significant byte. *)
Theorem update_constant_words (bo : byte_order) (this : CCSH)
    (bytes : list byte) (f : frame) :
  iterates bo (update_enter this bytes) f -> data f <> [] ->
  firstn 4 (currState (prepare_block bo f)) =
    [0x65787061; 0x6E642033; 0x32206279; 0x7465206B] /\
  pack_be "expand 32 byte k" =
    [0x65787061; 0x6E642033; 0x32206279; 0x7465206B].
Proof.
  intros Hit _. split; [|reflexivity].
  assert (F : frame_ok f).
  { eapply iterates_frame_ok; [apply update_enter_frame_ok | exact Hit]. }
  destruct (prepare_block_shape bo f (proj1 F)) as (_ & _ & C & _).
  exact C.
Qed.

Lemma update_constant_words_witness :
  let f := update_enter CCSH_new [Byte.x61; Byte.x62; Byte.x63] in
  iterates BigEndian f f /\ data f <> [] /\
  (firstn 4 (currState (prepare_block BigEndian f)) =
     [0x65787061; 0x6E642033; 0x32206279; 0x7465206B] /\
   pack_be "expand 32 byte k" =
     [0x65787061; 0x6E642033; 0x32206279; 0x7465206B]).
Proof.
  cbv zeta.
  split; [apply iterates_enter | split; [discriminate|]].
  apply (update_constant_words BigEndian CCSH_new
           [Byte.x61; Byte.x62; Byte.x63]);
    [apply iterates_enter | discriminate].
Defined.

(** What a pass hands to the permutation. Word 14 of the block is the low
    32 bits of the nonce before the pass, and the pass adds one to the
    nonce, once; the words 13 and 15 are zero; and the 32 bytes of the words
    4 to 11 are the bytes that the pass copies, followed by zero bytes up to
    32.  The bytes copied are at most 32 from the read position: the next
    32 bytes, or all that is left, whenever fewer than 256 bytes are
    left. *)
Lemma update_block_input (bo : byte_order) (this : CCSH)
    (bytes : list byte) (f : frame) :
  iterates bo (update_enter this bytes) f -> data f <> [] ->
  let inp := currState (prepare_block bo f) in
  arr_get 14 inp = u32 (nonce (self f)) /\
  nonce (self (prepare_block bo f)) = u64 (nonce (self f) + 1) /\
  (exists f', update_body bo f = Some f' /\ currState f' = inp /\
              nonce (self f') = u64 (nonce (self f) + 1)) /\
  arr_get 13 inp = 0 /\ arr_get 15 inp = 0 /\
  payload bo inp = chunk f ++ repeat Byte.x00 (32 - length (chunk f)) /\
  (length (chunk f) <= 32)%nat /\
  chunk f = firstn (length (chunk f)) (data f) /\
  ((length (data f) < 256)%nat -> chunk f = firstn 32 (data f)).
Proof.
  intros Hit _. cbv zeta.
  assert (F : frame_ok f).
  { eapply iterates_frame_ok; [apply update_enter_frame_ok | exact Hit]. }
  pose proof (prepare_block_currState bo f (proj1 F)) as E.
  pose proof (payload_words_length bo f) as LP.
  pose proof (words_of_bytes_u32 bo
    (chunk f ++ repeat Byte.x00 (32 - chunk_length f))) as UP.
  destruct (block_shape_layout _
    (u32 (u64 (counter (self f) + Z.of_nat (chunk_length f))))
    (u32 (nonce (self f))) LP UP (u32_range _) (u32_range _))
    as ((_ & _ & _ & Z13 & Z15) & HP & _ & H14).
  rewrite <- E in Z13, Z15, HP, H14.
  split; [exact H14|]. split; [reflexivity|]. split.
  { destruct (update_body_total bo f) as [f' Hb]. exists f'.
    split; [exact Hb|].
    destruct (update_body_inv bo f f' Hb) as (_ & _ & Hcs & _ & _ & _ & Hn & _).
    auto. }
  split; [exact Z13|]. split; [exact Z15|]. split.
  { unfold payload. rewrite HP, chunk_is_length.
    apply (bytes_of_words_of_bytes bo 8).
    rewrite length_app, repeat_length, chunk_is_length.
    pose proof (chunk_length_le_32 f). lia. }
  rewrite chunk_is_length.
  split; [apply chunk_length_le_32|]. split; [reflexivity|].
  apply chunk_below_256.
Qed.

(** * The accumulation *)

Lemma iterates_initialized (bo : byte_order) (f0 f : frame) :
  iterates bo f0 f -> initialized (self f0) = true ->
  initialized (self f) = true.
Proof.
  intros H I. induction H as [|g g' Hg IH Hgd Hgb]; [exact I|].
  destruct (update_body_inv bo g g' Hgb) as (_ & _ & _ & _ & _ & _ & _ & Hi & _).
  exact Hi.
Qed.

Lemma update_initialized (bo : byte_order) (this this' : CCSH)
    (bytes : list byte) :
  update bo this bytes = Some this' -> initialized this = true ->
  initialized this' = true.
Proof.
  intros H I.
  destruct (update_total bo this bytes) as (f & _ & _ & Hit & E).
  rewrite E in H. apply Some_inj in H. subst this'.
  apply (iterates_initialized bo _ _ Hit). exact I.
Qed.

Lemma run_initialized (bo : byte_order) (cs : list call) (this this' : CCSH)
    (rs : list string) :
  forallb continues cs = true -> run bo cs this = Some (this', rs) ->
  initialized this = true -> initialized this' = true.
Proof.
  revert this rs. induction cs as [|c cs IH]; intros this rs Hc H I.
  - cbn [run] in H. apply Some_inj in H. injection H as <- _. exact I.
  - cbn [forallb] in Hc. apply andb_prop in Hc. destruct Hc as [Hc Hcs].
    cbn [run] in H. apply bind_Some in H. destruct H as [[s r] [E H]].
    apply bind_Some in H. destruct H as [[s' rs'] [E' H]].
    apply Some_inj in H. injection H as <- _.
    apply (IH s rs' Hcs E').
    destruct c as [b|b|]; [discriminate Hc | |]; cbn [exec] in E.
    + apply bind_Some in E. destruct E as [t [U E]].
      apply Some_inj in E. injection E as <- _.
      eapply update_initialized; eauto.
    + apply Some_inj in E. injection E as <- _. exact I.
Qed.

(** C5. For every chunk that [update] works on: the pass runs the
    permutation; when [initialized] is false, its output becomes [state];
    otherwise every word of [state] becomes its exclusive or with the
    word of the output; after the pass [initialized] is true, and it stays
    true through the passes that follow and through every later call of the
    session, that is every call but [start]. *)
Theorem update_accumulates (bo : byte_order) (this : CCSH)
    (bytes : list byte) (f : frame) :
  length (state this) = 16%nat ->
  iterates bo (update_enter this bytes) f -> data f <> [] ->
  exists f' out,
    update_body bo f = Some f' /\
    chacha_block (outputBlock f) (currState (prepare_block bo f)) = Some out /\
    length out = 16%nat /\
    (initialized (self f) = false -> state (self f') = out) /\
    (initialized (self f) = true ->
       length (state (self f')) = 16%nat /\
       forall j, (j < 16)%nat ->
         arr_get j (state (self f')) =
         Z.lxor (arr_get j (state (self f))) (arr_get j out)) /\
    initialized (self f') = true /\
    (forall g, iterates bo f' g -> initialized (self g) = true) /\
    (forall cs this' rs,
       forallb continues cs = true -> run bo cs (self f') = Some (this', rs) ->
       initialized this' = true).
Proof.
  intros L Hit _.
  assert (F : frame_ok f).
  { eapply iterates_frame_ok; [apply update_enter_frame_ok | exact Hit]. }
  assert (Lf : length (state (self f)) = 16%nat).
  { eapply iterates_state_length;
      [apply update_enter_frame_ok | exact L | exact Hit]. }
  destruct (update_body_total bo f) as [f' Hb].
  destruct (update_body_state bo f f' F Lf Hb) as [Ho Hs].
  destruct (update_body_inv bo f f' Hb)
    as (out & E & _ & Hout & _ & _ & _ & Hi & _).
  rewrite Ho in Hout. subst out.
  exists f', (Reference.permutation (currState (prepare_block bo f))).
  split; [exact Hb|]. split; [exact E|].
  split; [apply permutation_length|].
  split; [intros I; rewrite Hs, I; reflexivity|].
  split.
  { intros I. rewrite Hs, I. split.
    - rewrite length_map, length_seq. reflexivity.
    - intros j Hj.
      generalize (Reference.permutation (currState (prepare_block bo f))).
      generalize (state (self f)). intros st out.
      do 16 (destruct j as [|j]; [reflexivity|]). lia. }
  split; [exact Hi|]. split.
  - intros g Hg. apply (iterates_initialized bo f' g Hg Hi).
  - intros cs this' rs Hc Hr. apply (run_initialized bo cs _ _ rs Hc Hr Hi).
Qed.

Lemma update_accumulates_witness :
  let f := update_enter after_abc [Byte.x78] in
  length (state after_abc) = 16%nat /\ iterates BigEndian f f /\
  data f <> [] /\
  exists f' out,
    update_body BigEndian f = Some f' /\
    chacha_block (outputBlock f) (currState (prepare_block BigEndian f)) =
      Some out /\
    length out = 16%nat /\
    (initialized (self f) = false -> state (self f') = out) /\
    (initialized (self f) = true ->
       length (state (self f')) = 16%nat /\
       forall j, (j < 16)%nat ->
         arr_get j (state (self f')) =
         Z.lxor (arr_get j (state (self f))) (arr_get j out)) /\
    initialized (self f') = true /\
    (forall g, iterates BigEndian f' g -> initialized (self g) = true) /\
    (forall cs this' rs,
       forallb continues cs = true ->
       run BigEndian cs (self f') = Some (this', rs) ->
       initialized this' = true).
Proof.
  cbv zeta.
  split; [reflexivity | split; [apply iterates_enter | split; [discriminate|]]].
  apply (update_accumulates BigEndian after_abc [Byte.x78]);
    [reflexivity | apply iterates_enter | discriminate].
Defined.

(** * Sessions *)

Example start_abc :
  start LittleEndian CCSH_new [Byte.x61; Byte.x62; Byte.x63] = Some after_abc.
Proof. vm_compute. reflexivity. Qed.

Example start_string_abc :
  start_string LittleEndian CCSH_new "abc" = Some after_abc.
Proof. vm_compute. reflexivity. Qed.

Lemma after_abc_reachable : reachable LittleEndian after_abc.
Proof.
  exists [Start [Byte.x61; Byte.x62; Byte.x63]], [].
  vm_compute. reflexivity.
Qed.

(** C7. After any sequence of calls on an object, [start] on the bytes [B]
    sets [counter] and [nonce] to 0, [initialized] to false and [state] to
    sixteen zero words before it takes in [B]: it is [update] on such an
    object.  It returns, and the object and the digest text after it are
    those of a newly constructed object after [start] on [B]. *)
Theorem start_after_any_history (bo : byte_order) (this : CCSH)
    (bytes : list byte) :
  reachable bo this ->
  start bo this bytes =
    update bo
      {| state := repeat 0 16; counter := 0; nonce := 0; initialized := false |}
      bytes /\
  exists this',
    start bo this bytes = Some this' /\
    start bo CCSH_new bytes = Some this' /\
    run bo [Start bytes; Hexdump] this = Some (this', [hexdump this']) /\
    run bo [Start bytes; Hexdump] CCSH_new = Some (this', [hexdump this']).
Proof.
  intros R. destruct (reachable_ok bo this R) as (L & _).
  pose proof (start_resets bo this bytes L) as E.
  pose proof (start_resets bo CCSH_new bytes eq_refl) as E0.
  split; [exact E|].
  destruct (start_total bo this bytes) as [this' H].
  exists this'. split; [exact H|].
  assert (H0 : start bo CCSH_new bytes = Some this') by congruence.
  split; [exact H0|].
  cbn [run exec]. rewrite H, H0. split; reflexivity.
Qed.

Lemma start_after_any_history_witness :
  reachable LittleEndian after_abc /\
  (start LittleEndian after_abc [Byte.x78] =
     update LittleEndian
       {| state := repeat 0 16; counter := 0; nonce := 0; initialized := false |}
       [Byte.x78] /\
   exists this',
     start LittleEndian after_abc [Byte.x78] = Some this' /\
     start LittleEndian CCSH_new [Byte.x78] = Some this' /\
     run LittleEndian [Start [Byte.x78]; Hexdump] after_abc =
       Some (this', [hexdump this']) /\
     run LittleEndian [Start [Byte.x78]; Hexdump] CCSH_new =
       Some (this', [hexdump this'])).
Proof.
  split; [apply after_abc_reachable|].
  apply (start_after_any_history LittleEndian after_abc [Byte.x78]).
  apply after_abc_reachable.
Defined.

(** * The digest *)

Lemma digest_text_length (st : list Z) : String.length (digest_text st) = 128%nat.
Proof.
  unfold digest_text. cbn [seq map String.concat].
  rewrite !string_length_app, !hex8_length. reflexivity.
Qed.

Lemma digest_text_lower (st : list Z) :
  string_forall is_lower_hex (digest_text st) = true.
Proof.
  unfold digest_text. cbn [seq map String.concat].
  rewrite !string_forall_app, !hex8_lower. reflexivity.
Qed.

(** C8. In every state that calls can lead to, the newly constructed
    object included, [hexdump] returns 128 characters, each one of
    [0]..[9], [a]..[f], with nothing before or between them: the words 0 to
    15 of [state] in this order, each as its eight hexadecimal digits from
    the most significant one, zeros included.  For the newly constructed
    object these are 128 characters [0]. *)
Theorem hexdump_format (bo : byte_order) (this : CCSH) :
  reachable bo this ->
  String.length (hexdump this) = 128%nat /\
  string_forall is_lower_hex (hexdump this) = true /\
  hexdump this = digest_text (state this) /\
  hexdump CCSH_new = fill_string 128 "0"%char.
Proof.
  intros R. destruct (reachable_ok bo this R) as (_ & U & _).
  rewrite (hexdump_digest_text this U).
  split; [apply digest_text_length|].
  split; [apply digest_text_lower|].
  split; reflexivity.
Qed.

Lemma hexdump_format_witness :
  reachable LittleEndian after_abc /\
  (String.length (hexdump after_abc) = 128%nat /\
   string_forall is_lower_hex (hexdump after_abc) = true /\
   hexdump after_abc = digest_text (state after_abc) /\
   hexdump CCSH_new = fill_string 128 "0"%char).
Proof.
  split; [apply after_abc_reachable|].
  apply (hexdump_format LittleEndian after_abc). apply after_abc_reachable.
Defined.

Example hexdump_abc :
  hexdump after_abc =
  ("d7504bdfb02ef2570358825eec63445200a61059e95cebc6648b23339ec504e6" ++
   "63cf48c64e16f10defd91d96457ff4a602e2bf84bb9247e4b0035d48e23377cc")%string.
Proof. vm_compute. reflexivity. Qed.

(** C9. [hexdump] only reads: the call leaves [state], [counter], [nonce]
    and [initialized] as they are and returns the digest text of the
    object; so [start] on any bytes followed by two calls of [hexdump]
    returns, and gives the same text twice. *)
Theorem hexdump_reads_only (bo : byte_order) (this : CCSH) (bytes : list byte) :
  (exists this' r,
     exec bo Hexdump this = Some (this', Some r) /\ r = hexdump this /\
     state this' = state this /\ counter this' = counter this /\
     nonce this' = nonce this /\ initialized this' = initialized this) /\
  exists this' d,
    start bo this bytes = Some this' /\ d = hexdump this' /\
    run bo [Start bytes; Hexdump; Hexdump] this = Some (this', [d; d]).
Proof.
  split.
  - exists this, (hexdump this). cbn [exec]. repeat split; reflexivity.
  - destruct (start_total bo this bytes) as [this' H].
    exists this', (hexdump this'). split; [exact H|].
    split; [reflexivity|]. cbn [run exec]. rewrite H. reflexivity.
Qed.

(** * Inputs of 256 bytes and more *)

(** C1, on an input of 256 bytes. The conversion of [dataEnd - data] to
    [uint8_t] makes the first pass copy no byte and add nothing to
    [counter], although 256 bytes are left: the block it builds holds the
    counter 0 and 32 zero bytes, not the first 32 bytes of the input, and
    after [start] the counter is 224, not 256. *)
Theorem start_counter_at_256 (bo : byte_order) :
  let B := repeat Byte.x61 256 in
  let f := update_enter CCSH_new B in
  bytesToCopy 256 = 0 /\
  chunk f = [] /\
  payload bo (currState (prepare_block bo f)) = repeat Byte.x00 32 /\
  arr_get 12 (currState (prepare_block bo f)) = 0 /\
  exists this',
    start bo CCSH_new B = Some this' /\
    counter this' = 224 /\
    counter this' <> Z.of_nat (length B).
Proof.
  cbv zeta. split; [reflexivity|]. split; [reflexivity|].
  split; [destruct bo; vm_compute; reflexivity|].
  split; [destruct bo; vm_compute; reflexivity|].
  destruct (start_total bo CCSH_new (repeat Byte.x61 256)) as [this' H].
  exists this'. split; [exact H|].
  assert (E : option_map counter (start bo CCSH_new (repeat Byte.x61 256))
              = Some 224).
  { destruct bo; vm_compute; reflexivity. }
  rewrite H in E. cbn [option_map] in E. apply Some_inj in E.
  rewrite E. split; [reflexivity | discriminate].
Qed.

(** C4, on 32 bytes followed by 224 bytes. The same conversion makes the
    single [update] on the 256 bytes start with a pass that copies nothing,
    where the [update] on the first 32 bytes copies them: the two ways end
    in different states. *)
Theorem update_split_at_256 (bo : byte_order) :
  let B1 := repeat Byte.x61 32 in
  let B2 := repeat Byte.x62 224 in
  (length B1 mod 32 = 0)%nat /\
  exists s1 s2 s12,
    update bo CCSH_new B1 = Some s1 /\
    update bo s1 B2 = Some s2 /\
    update bo CCSH_new (B1 ++ B2) = Some s12 /\
    state s2 <> state s12 /\ hexdump s2 <> hexdump s12 /\
    counter s2 = 256 /\ counter s12 = 224.
Proof.
  cbv zeta. split; [reflexivity|].
  destruct bo.
  - eexists _, _, _.
    split; [vm_compute; reflexivity|].
    split; [vm_compute; reflexivity|].
    split; [vm_compute; reflexivity|].
    split; [vm_compute; discriminate|].
    split; [vm_compute; discriminate|].
    split; reflexivity.
  - eexists _, _, _.
    split; [vm_compute; reflexivity|].
    split; [vm_compute; reflexivity|].
    split; [vm_compute; reflexivity|].
    split; [vm_compute; discriminate|].
    split; [vm_compute; discriminate|].
    split; reflexivity.
Qed.

(** C6, on an input of 256 bytes. The first pass records the nonce 0 in
    word 14, moves the nonce to 1 and leaves the words 13 and 15 zero, but
    the words 4 to 11 do not hold the first chunk, the first 32 bytes of the
    input: by the same conversion as for C1 the pass copies nothing, and
    the 32 bytes of these words are zero. *)
Theorem update_payload_at_256 (bo : byte_order) :
  let B := repeat Byte.x61 256 in
  let f := update_enter CCSH_new B in
  let inp := currState (prepare_block bo f) in
  iterates bo f f /\ data f <> [] /\
  firstn 32 (data f) = repeat Byte.x61 32 /\
  payload bo inp = repeat Byte.x00 32 /\
  payload bo inp <> firstn 32 (data f) /\
  arr_get 13 inp = 0 /\ arr_get 14 inp = 0 /\ arr_get 15 inp = 0 /\
  nonce (self f) = 0 /\ nonce (self (prepare_block bo f)) = 1.
Proof.
  cbv zeta. split; [apply iterates_enter|]. split; [discriminate|].
  split; [reflexivity|].
  assert (P : payload bo (currState (prepare_block bo
                (update_enter CCSH_new (repeat Byte.x61 256))))
              = repeat Byte.x00 32).
  { destruct bo; vm_compute; reflexivity. }
  split; [exact P|]. split; [rewrite P; discriminate|].
  destruct bo; vm_compute; repeat split; reflexivity.
Qed.

(** * Further properties of the code *)

(** ** Rotations *)

(** X1. For a 32-bit word and an amount [b] in 1..31, [rotateLeft] returns
    a 32-bit word whose bit [i] is bit [i - b], counted modulo 32, of the
    argument; rotating the result by [32 - b] gives the argument back. *)
Theorem rotateLeft_rotates (a b : Z) :
  is_u32 a -> 1 <= b <= 31 ->
  exists r, rotateLeft a b = Some r /\ is_u32 r /\
    (forall i, 0 <= i < 32 -> Z.testbit r i = Z.testbit a ((i - b) mod 32)) /\
    rotateLeft r (32 - b) = Some a.
Proof.
  intros A B.
  destruct (rotateLeft_is_rotation a b A B) as (r & E & R & Bits).
  exists r. split; [exact E|]. split; [exact R|]. split; [exact Bits|].
  destruct (rotateLeft_is_rotation r (32 - b) R ltac:(lia)) as (a' & E' & R' & Bits').
  rewrite E'. f_equal.
  assert (High : forall x n, is_u32 x -> 32 <= n -> Z.testbit x n = false).
  { intros x n [X0 X1] Hn. rewrite <- (Z.mod_small x (2 ^ 32)) by lia.
    apply Z.mod_pow2_bits_high. lia. }
  apply Z.bits_inj'. intros i Hi.
  destruct (Z_lt_ge_dec i 32) as [Lt|Ge].
  - rewrite Bits' by lia.
    assert (M : 0 <= (i - (32 - b)) mod 32 < 32) by (apply Z.mod_pos_bound; lia).
    rewrite Bits by exact M. f_equal.
    rewrite Zminus_mod_idemp_l.
    replace (i - (32 - b) - b) with (i + (-1) * 32) by lia.
    rewrite Z.mod_add by lia. apply Z.mod_small. lia.
  - rewrite (High a' i R') by lia. rewrite (High a i A) by lia. reflexivity.
Qed.

Lemma rotateLeft_rotates_witness :
  is_u32 0x80000001 /\ 1 <= 7 <= 31 /\
  exists r, rotateLeft 0x80000001 7 = Some r /\ is_u32 r /\
    (forall i, 0 <= i < 32 ->
       Z.testbit r i = Z.testbit 0x80000001 ((i - 7) mod 32)) /\
    rotateLeft r (32 - 7) = Some 0x80000001.
Proof.
  split; [unfold is_u32; lia | split; [lia|]].
  apply (rotateLeft_rotates 0x80000001 7); [unfold is_u32; lia | lia].
Defined.

(** ** The counters after a call *)

Lemma counted_step (n : Z) :
  1 <= n -> bytesToCopy n + counted (Z.max (n - 32) 0) = counted n.
Proof.
  intros H. unfold bytesToCopy, counted, u8.
  change (2 ^ 8) with 256. change (32 mod 256) with 32.
  destruct (Z_le_gt_dec n 32) as [Le|Gt].
  - rewrite Z.max_r by lia. change (0 / 256) with 0.
    rewrite (Z.mod_small n 256) by lia. rewrite (Z.div_small n 256) by lia. lia.
  - rewrite Z.max_l by lia.
    assert (M : (n - 32) mod 32 = n mod 32).
    { replace (n - 32) with (n + (-1) * 32) by lia. apply Z.mod_add. lia. }
    rewrite M.
    assert (R : n mod 256 mod 32 = n mod 32).
    { symmetry. rewrite (Z.div_mod n 256) at 1 by lia.
      replace (256 * (n / 256) + n mod 256)
        with (n mod 256 + (8 * (n / 256)) * 32) by lia.
      apply Z.mod_add. lia. }
    pose proof (Z.mod_pos_bound n 256 eq_refl) as B.
    pose proof (Z.mod_pos_bound n 32 eq_refl) as B32.
    pose proof (Z.div_mod n 256 ltac:(lia)) as E.
    destruct (Z_lt_ge_dec (n mod 256) 32) as [Lt|Ge].
    + assert (n mod 256 = n mod 32)
        by (rewrite <- R; symmetry; apply Z.mod_small; lia).
      assert (Q : (n - 32) / 256 = n / 256 - 1).
      { symmetry.
        apply (Z.div_unique (n - 32) 256 (n / 256 - 1) (n mod 256 + 224)); lia. }
      rewrite Q. rewrite Z.min_l by lia. nia.
    + assert (Q : (n - 32) / 256 = n / 256).
      { symmetry.
        apply (Z.div_unique (n - 32) 256 (n / 256) (n mod 256 - 32)); lia. }
      rewrite Q. rewrite Z.min_r by lia. lia.
Qed.

Lemma counted_bounds (n : Z) :
  0 <= n ->
  0 <= counted n <= n /\ (n < 256 -> counted n = n) /\
  (256 <= n -> counted n < n).
Proof.
  intros H. unfold counted.
  pose proof (Z.mod_pos_bound n 32 eq_refl) as B.
  pose proof (Z.div_mod n 256 ltac:(lia)) as E.
  pose proof (Z.mod_pos_bound n 256 eq_refl) as B'.
  assert (Q : 0 <= n / 256) by (apply Z.div_pos; lia).
  split; [split; nia|]. split.
  - intros L. rewrite Z.div_small by lia. lia.
  - intros L. assert (1 <= n / 256) by (apply Z.div_le_lower_bound; lia). nia.
Qed.

Lemma update_loop_counter (bo : byte_order) (fuel : nat) (f f' : frame) :
  is_u64 (counter (self f)) -> update_loop bo fuel f = Some f' ->
  counter (self f') =
  u64 (counter (self f) + counted (Z.of_nat (length (data f)))).
Proof.
  revert f. induction fuel as [|fuel IH]; intros f C H.
  - unfold update_loop in H. destruct (data f) as [|x tl] eqn:E;
      [|discriminate H].
    apply Some_inj in H. subst f'. cbn [length Z.of_nat].
    change (counted 0) with 0. rewrite Z.add_0_r, u64_small by exact C.
    reflexivity.
  - cbn [update_loop] in H. destruct (data f) as [|x tl] eqn:E.
    + apply Some_inj in H. subst f'. cbn [length Z.of_nat].
      change (counted 0) with 0. rewrite Z.add_0_r, u64_small by exact C.
      reflexivity.
    + apply bind_Some in H. destruct H as [f1 [Hb H]].
      destruct (update_body_inv bo f f1 Hb)
        as (_ & _ & _ & _ & Hd & Hc & _).
      rewrite (IH f1) by (rewrite ?Hc; auto using u64_range).
      rewrite Hc, u64_add_l, Hd, length_skipn. f_equal.
      rewrite <- Z.add_assoc. f_equal.
      unfold chunk_length. rewrite Z2Nat.id by apply bytesToCopy_range.
      rewrite E.
      replace (Z.of_nat (length (x :: tl) - 32))
        with (Z.max (Z.of_nat (length (x :: tl)) - 32) 0) by lia.
      apply counted_step. cbn [length]. lia.
Qed.

(** X2. A call of [update] on [n] bytes returns and adds [counted n] to
    [counter], modulo [2 ^ 64]: [n] itself for every input of fewer than
    256 bytes, and fewer than [n], though never less than nothing, from 256
    bytes on. *)
Theorem update_counter (bo : byte_order) (this : CCSH) (bytes : list byte) :
  is_u64 (counter this) ->
  exists this',
    update bo this bytes = Some this' /\
    counter this' = u64 (counter this + counted (Z.of_nat (length bytes))) /\
    0 <= counted (Z.of_nat (length bytes)) <= Z.of_nat (length bytes) /\
    ((length bytes < 256)%nat ->
       counter this' = u64 (counter this + Z.of_nat (length bytes))) /\
    ((256 <= length bytes)%nat ->
       counted (Z.of_nat (length bytes)) < Z.of_nat (length bytes)).
Proof.
  intros C.
  destruct (update_total bo this bytes) as (f & Hl & _ & _ & H).
  exists (self f). split; [exact H|].
  pose proof (update_loop_counter bo _ (update_enter this bytes) f C Hl) as E.
  cbn [update_enter self data] in E.
  destruct (counted_bounds (Z.of_nat (length bytes)) ltac:(lia))
    as (B & S & L).
  split; [exact E|]. split; [exact B|]. split.
  - intros Lt. rewrite E, S by lia. reflexivity.
  - intros Ge. apply L. lia.
Qed.

Lemma update_counter_witness :
  is_u64 (counter after_abc) /\
  exists this',
    update LittleEndian after_abc (repeat Byte.x61 300) = Some this' /\
    counter this' =
      u64 (counter after_abc +
           counted (Z.of_nat (length (repeat Byte.x61 300)))) /\
    0 <= counted (Z.of_nat (length (repeat Byte.x61 300)))
      <= Z.of_nat (length (repeat Byte.x61 300)) /\
    ((length (repeat Byte.x61 300) < 256)%nat ->
       counter this' =
       u64 (counter after_abc + Z.of_nat (length (repeat Byte.x61 300)))) /\
    ((256 <= length (repeat Byte.x61 300))%nat ->
       counted (Z.of_nat (length (repeat Byte.x61 300)))
       < Z.of_nat (length (repeat Byte.x61 300))).
Proof.
  split; [unfold is_u64; cbn; lia|].
  apply (update_counter LittleEndian after_abc (repeat Byte.x61 300)).
  unfold is_u64; cbn; lia.
Defined.

(** X3. A call of [update] returns and moves [nonce] once for every 32
    bytes of its input, a last shorter piece included, modulo [2 ^ 64]; no
    input, no move. *)
Theorem update_nonce_passes (bo : byte_order) (this : CCSH) (bytes : list byte) :
  is_u64 (nonce this) ->
  exists this',
    update bo this bytes = Some this' /\
    nonce this' = u64 (nonce this + Z.of_nat ((length bytes + 31) / 32)).
Proof.
  intros N.
  destruct (update_total bo this bytes) as (f & _ & _ & _ & H).
  exists (self f). split; [exact H|].
  apply (update_nonce bo this (self f) bytes N H).
Qed.

Lemma update_nonce_passes_witness :
  is_u64 (nonce after_abc) /\
  exists this',
    update BigEndian after_abc (repeat Byte.x61 33) = Some this' /\
    nonce this' =
      u64 (nonce after_abc +
           Z.of_nat ((length (repeat Byte.x61 33) + 31) / 32)).
Proof.
  split; [unfold is_u64; cbn; lia|].
  apply (update_nonce_passes BigEndian after_abc (repeat Byte.x61 33)).
  unfold is_u64; cbn; lia.
Defined.

(** ** One call or several *)

(** X4. When [B1] has a length that is a multiple of 32 and [B1] and [B2]
    have fewer than 256 bytes together, the call of [update] on [B1]
    followed by the call on [B2] leaves the object that the one call on
    [B1 ++ B2] leaves. *)
Theorem update_streams_below_256 (bo : byte_order) (this : CCSH)
    (B1 B2 : list byte) :
  (length B1 mod 32 = 0)%nat -> (length B1 + length B2 < 256)%nat ->
  exists s1 s2,
    update bo this B1 = Some s1 /\ update bo s1 B2 = Some s2 /\
    update bo this (B1 ++ B2) = Some s2.
Proof.
  intros M L.
  assert (K : length B1 = (32 * (length B1 / 32))%nat).
  { pose proof (Nat.div_mod_eq (length B1) 32). lia. }
  pose proof (update_concat_below_256 bo this B1 B2 (length B1 / 32) K) as E.
  rewrite length_app in E. specialize (E L).
  destruct (update_total bo this B1) as (f1 & _ & _ & _ & H1).
  destruct (update_total bo (self f1) B2) as (f2 & _ & _ & _ & H2).
  exists (self f1), (self f2). split; [exact H1|]. split; [exact H2|].
  rewrite E, H1. cbn [bind]. exact H2.
Qed.

Lemma update_streams_below_256_witness :
  (length (repeat Byte.x61 64) mod 32 = 0)%nat /\
  (length (repeat Byte.x61 64) + length [Byte.x62; Byte.x63] < 256)%nat /\
  exists s1 s2,
    update LittleEndian CCSH_new (repeat Byte.x61 64) = Some s1 /\
    update LittleEndian s1 [Byte.x62; Byte.x63] = Some s2 /\
    update LittleEndian CCSH_new (repeat Byte.x61 64 ++ [Byte.x62; Byte.x63])
      = Some s2.
Proof.
  split; [reflexivity | split; [cbn; lia|]].
  apply (update_streams_below_256 LittleEndian CCSH_new
           (repeat Byte.x61 64) [Byte.x62; Byte.x63]);
    [reflexivity | cbn; lia].
Defined.

(** ** With and without input *)

Lemma update_loop_step (bo : byte_order) (fuel : nat) (f : frame) :
  data f <> [] ->
  update_loop bo (S fuel) f = (f' <- update_body bo f ;; update_loop bo fuel f').
Proof.
  intros E. cbn [update_loop]. destruct (data f); [congruence | reflexivity].
Qed.

Lemma update_loop_done (bo : byte_order) (fuel : nat) (f : frame) :
  data f = [] -> update_loop bo fuel f = Some f.
Proof.
  intros E. destruct fuel; cbn [update_loop]; rewrite E; reflexivity.
Qed.

Lemma update_unfold (bo : byte_order) (this : CCSH) (x : byte) (tl : list byte) :
  update bo this (x :: tl) =
  (f1 <- update_body bo (update_enter this (x :: tl)) ;;
   f <- update_loop bo (length tl) f1 ;; Some (self f)).
Proof.
  unfold update. change (length (x :: tl)) with (S (length tl)).
  rewrite update_loop_step by discriminate.
  destruct (update_body bo (update_enter this (x :: tl))); reflexivity.
Qed.

Lemma update_initialized_eq (bo : byte_order) (this this' : CCSH)
    (bytes : list byte) :
  update bo this bytes = Some this' ->
  initialized this' = initialized this || has_bytes bytes /\
  (bytes = [] -> this' = this).
Proof.
  intros H. destruct bytes as [|x tl].
  - apply Some_inj in H. subst this'. cbn [has_bytes].
    rewrite orb_false_r. auto.
  - cbn [has_bytes]. rewrite orb_true_r. split; [|discriminate].
    rewrite update_unfold in H.
    apply bind_Some in H. destruct H as [f1 [Hb H]].
    destruct (update_body_inv bo _ f1 Hb)
      as (_ & _ & _ & _ & Hd & _ & _ & Hi & _).
    destruct (update_loop_total bo (length tl) f1) as (f' & Hl' & _ & Hit).
    { rewrite Hd, length_skipn. cbn [data update_enter length]. lia. }
    rewrite Hl' in H. cbn [bind] in H. apply Some_inj in H. subst this'.
    apply (iterates_initialized bo f1 f' Hit Hi).
Qed.

(** X5. After a call of [update], [initialized] is true when the call had
    bytes to take in and as it was before when it had none, in which case
    the whole object is as it was before.  After a call of [start] on an
    object of sixteen state words, [initialized] is true exactly when the
    input was not empty; with an empty input the object is that of the
    constructor and the digest text is 128 characters [0]. *)
Theorem calls_and_initialized (bo : byte_order) (this : CCSH) (bytes : list byte) :
  length (state this) = 16%nat ->
  (exists u, update bo this bytes = Some u /\
     initialized u = initialized this || has_bytes bytes /\
     (bytes = [] -> u = this)) /\
  (exists s, start bo this bytes = Some s /\
     initialized s = has_bytes bytes /\
     (bytes = [] -> s = CCSH_new /\ hexdump s = fill_string 128 "0"%char)).
Proof.
  intros L. split.
  - destruct (update_total bo this bytes) as (f & _ & _ & _ & H).
    exists (self f). split; [exact H|].
    apply (update_initialized_eq bo this (self f) bytes H).
  - destruct (start_total bo this bytes) as [s H].
    exists s. split; [exact H|].
    rewrite (start_resets bo this bytes L) in H.
    destruct (update_initialized_eq bo CCSH_new s bytes H) as [I E].
    split; [exact I|].
    intros N. rewrite (E N). split; reflexivity.
Qed.

Lemma calls_and_initialized_witness :
  length (state after_abc) = 16%nat /\
  (exists u, update LittleEndian after_abc [Byte.x78] = Some u /\
     initialized u = initialized after_abc || has_bytes [Byte.x78] /\
     ([Byte.x78] = [] -> u = after_abc)) /\
  (exists s, start LittleEndian after_abc [Byte.x78] = Some s /\
     initialized s = has_bytes [Byte.x78] /\
     ([Byte.x78] = [] ->
      s = CCSH_new /\ hexdump s = fill_string 128 "0"%char)).
Proof.
  split; [reflexivity|].
  apply (calls_and_initialized LittleEndian after_abc [Byte.x78]). reflexivity.
Defined.

Lemma run_pristine (bo : byte_order) (cs : list call) :
  forall (this this' : CCSH) (rs : list string),
    CCSH_ok this -> (initialized this = false -> this = CCSH_new) ->
    run bo cs this = Some (this', rs) ->
    initialized this' = false -> this' = CCSH_new.
Proof.
  induction cs as [|c cs IH]; intros this this' rs K P H.
  - cbn [run] in H. apply Some_inj in H. injection H as <- _. exact P.
  - cbn [run] in H. apply bind_Some in H. destruct H as [[s r] [E H]].
    apply bind_Some in H. destruct H as [[s' rs'] [E' H]].
    apply Some_inj in H. injection H as <- _.
    apply (IH s s' rs'); [eapply exec_CCSH_ok; eauto | | exact E'].
    destruct c as [b|b|]; cbn [exec] in E.
    + apply bind_Some in E. destruct E as [t [U E]].
      apply Some_inj in E. injection E as <- _.
      rewrite (start_resets bo this b (proj1 K)) in U.
      destruct (update_initialized_eq bo CCSH_new t b U) as [I N].
      intros F. rewrite F in I. cbn [initialized CCSH_new orb] in I.
      apply N. destruct b; [reflexivity | discriminate I].
    + apply bind_Some in E. destruct E as [t [U E]].
      apply Some_inj in E. injection E as <- _.
      destruct (update_initialized_eq bo this t b U) as [I N].
      intros F. rewrite F in I. symmetry in I.
      apply orb_false_elim in I. destruct I as [I1 I2].
      rewrite N by (destruct b; [reflexivity | discriminate I2]).
      apply P, I1.
    + apply Some_inj in E. injection E as <- _. exact P.
Qed.

(** X6. In every state that calls lead to from the constructed object,
    [initialized] is false only when the object is as constructed: sixteen
    zero words in [state], [counter] and [nonce] 0, and a digest text of
    128 characters [0]. *)
Theorem uninitialized_is_pristine (bo : byte_order) (this : CCSH) :
  reachable bo this -> initialized this = false ->
  this = CCSH_new /\ state this = repeat 0 16 /\ counter this = 0 /\
  nonce this = 0 /\ hexdump this = fill_string 128 "0"%char.
Proof.
  intros (cs & rs & H) I.
  assert (E : this = CCSH_new).
  { apply (run_pristine bo cs CCSH_new this rs CCSH_new_ok (fun _ => eq_refl) H I). }
  rewrite E. repeat split; reflexivity.
Qed.

Lemma uninitialized_is_pristine_witness :
  let s := CCSH_new in
  reachable LittleEndian s /\ initialized s = false /\
  (s = CCSH_new /\ state s = repeat 0 16 /\ counter s = 0 /\
   nonce s = 0 /\ hexdump s = fill_string 128 "0"%char).
Proof.
  cbv zeta.
  assert (R : reachable LittleEndian CCSH_new).
  { exists [Start [Byte.x61]; Start []], []. vm_compute. reflexivity. }
  split; [exact R | split; [reflexivity|]].
  apply (uninitialized_is_pristine LittleEndian CCSH_new R). reflexivity.
Defined.

(** ** What a pass and a short call compute *)

Lemma block_of_currState (bo : byte_order) (f : frame) :
  block_shape (currState f) ->
  currState (prepare_block bo f) =
  block_of bo (chunk f)
    (u64 (counter (self f) + Z.of_nat (length (chunk f)))) (nonce (self f)).
Proof.
  intros H. rewrite (prepare_block_currState bo f H).
  unfold block_of. rewrite !chunk_is_length. reflexivity.
Qed.

(** X7. For every pass of the loop of [update], the block handed to the
    permutation is: the four given words; the bytes copied, zero bytes
    after them, as the eight words 4 to 11; in word 12 the low 32 bits of
    [counter] after the length of the copied bytes was added; in word 14
    the low 32 bits of [nonce] before the pass; zero in the words 13 and
    15.  The bytes copied are at most 32 and start at the read position:
    they are the next 32 bytes, or all that is left, whenever fewer than
    256 bytes are left.  The pass returns with the permutation of this
    block in [outputBlock] and the read position 32 bytes on. *)
Theorem pass_block (bo : byte_order) (this : CCSH) (bytes : list byte)
    (f : frame) :
  iterates bo (update_enter this bytes) f -> data f <> [] ->
  let blk :=
    block_of bo (chunk f)
      (u64 (counter (self f) + Z.of_nat (length (chunk f))))
      (nonce (self f)) in
  currState (prepare_block bo f) = blk /\
  (length (chunk f) <= 32)%nat /\
  chunk f = firstn (length (chunk f)) (data f) /\
  ((length (data f) < 256)%nat -> chunk f = firstn 32 (data f)) /\
  exists f', update_body bo f = Some f' /\
    outputBlock f' = Reference.permutation blk /\
    data f' = skipn 32 (data f).
Proof.
  intros Hit _. cbv zeta.
  assert (F : frame_ok f).
  { eapply iterates_frame_ok; [apply update_enter_frame_ok | exact Hit]. }
  pose proof (block_of_currState bo f (proj1 F)) as E.
  split; [exact E|].
  rewrite chunk_is_length.
  split; [apply chunk_length_le_32|]. split; [reflexivity|].
  split; [apply chunk_below_256|].
  destruct (update_body_total bo f) as [f' Hb]. exists f'.
  split; [exact Hb|].
  destruct (update_body_inv bo f f' Hb) as (out & C & _ & Ho & Hd & _).
  split; [|exact Hd].
  rewrite chacha_block_reference_gen in C;
    [| apply F | apply prepare_block_shape; apply F].
  apply Some_inj in C. rewrite Ho, <- C, E, chunk_is_length. reflexivity.
Qed.

Lemma pass_block_witness :
  let f := update_enter after_abc [Byte.x78; Byte.x79] in
  let blk :=
    block_of BigEndian (chunk f)
      (u64 (counter (self f) + Z.of_nat (length (chunk f))))
      (nonce (self f)) in
  iterates BigEndian f f /\ data f <> [] /\
  (currState (prepare_block BigEndian f) = blk /\
   (length (chunk f) <= 32)%nat /\
   chunk f = firstn (length (chunk f)) (data f) /\
   ((length (data f) < 256)%nat -> chunk f = firstn 32 (data f)) /\
   exists f', update_body BigEndian f = Some f' /\
     outputBlock f' = Reference.permutation blk /\
     data f' = skipn 32 (data f)).
Proof.
  cbv zeta. split; [apply iterates_enter | split; [discriminate|]].
  apply (pass_block BigEndian after_abc [Byte.x78; Byte.x79]);
    [apply iterates_enter | discriminate].
Defined.

(** X8. A call of [update] on 1 to 32 bytes makes one pass: [counter]
    grows by the number of bytes and [nonce] by one, modulo [2 ^ 64],
    [initialized] becomes true, and [state] becomes the permutation of the
    block of these bytes when [initialized] was false, and its exclusive or
    with that permutation, word by word, when it was true. *)
Theorem update_one_block (bo : byte_order) (this : CCSH) (bytes : list byte) :
  length (state this) = 16%nat -> bytes <> [] -> (length bytes <= 32)%nat ->
  let count := u64 (counter this + Z.of_nat (length bytes)) in
  let out := Reference.permutation (block_of bo bytes count (nonce this)) in
  update bo this bytes =
  Some {| state := if initialized this then xor_words (state this) out else out;
          counter := count;
          nonce := u64 (nonce this + 1);
          initialized := true |}.
Proof.
  intros L N Le. cbv zeta.
  destruct bytes as [|x tl]; [congruence|].
  set (bytes := x :: tl) in *.
  set (f := update_enter this bytes).
  assert (F : frame_ok f) by apply update_enter_frame_ok.
  assert (Ch : chunk f = bytes).
  { rewrite chunk_below_256 by (cbn [f update_enter data]; lia).
    apply firstn_all2. exact Le. }
  unfold bytes at 1. rewrite update_unfold. fold bytes. fold f.
  destruct (update_body_total bo f) as [f1 Hb]. rewrite Hb. cbn [bind].
  destruct (update_body_state bo f f1 F L Hb) as [_ Hs].
  destruct (update_body_inv bo f f1 Hb)
    as (_ & _ & _ & _ & Hd & Hc & Hn & Hi & _).
  rewrite update_loop_done
    by (rewrite Hd; apply skipn_all2; exact Le).
  cbn [bind]. f_equal.
  rewrite (block_of_currState bo f (proj1 F)), Ch in Hs.
  rewrite <- (chunk_is_length f), Ch in Hc.
  cbn [f update_enter self] in Hs, Hc, Hn.
  destruct (self f1) as [s1 c1 n1 i1].
  cbn [state counter nonce initialized] in Hs, Hc, Hn, Hi.
  rewrite Hs, Hc, Hn, Hi. reflexivity.
Qed.

Lemma update_one_block_witness :
  length (state after_abc) = 16%nat /\ [Byte.x78] <> [] /\
  (length [Byte.x78] <= 32)%nat /\
  update LittleEndian after_abc [Byte.x78] =
  Some {| state :=
            if initialized after_abc then
              xor_words (state after_abc)
                (Reference.permutation
                   (block_of LittleEndian [Byte.x78]
                      (u64 (counter after_abc + Z.of_nat (length [Byte.x78])))
                      (nonce after_abc)))
            else
              Reference.permutation
                (block_of LittleEndian [Byte.x78]
                   (u64 (counter after_abc + Z.of_nat (length [Byte.x78])))
                   (nonce after_abc));
          counter := u64 (counter after_abc + Z.of_nat (length [Byte.x78]));
          nonce := u64 (nonce after_abc + 1);
          initialized := true |}.
Proof.
  split; [reflexivity | split; [discriminate | split; [cbn; lia|]]].
  apply (update_one_block LittleEndian after_abc [Byte.x78]);
    [reflexivity | discriminate | cbn; lia].
Defined.

(** ** Inputs whose first bytes do not count *)

Lemma bytesToCopy_multiple_256 (n : nat) :
  (n mod 256 = 0)%nat -> bytesToCopy (Z.of_nat n) = 0.
Proof.
  intros H. unfold bytesToCopy, u8. change (2 ^ 8) with 256.
  change (32 mod 256) with 32.
  replace (Z.of_nat n mod 256) with 0; [reflexivity|].
  change 256 with (Z.of_nat 256). rewrite <- Nat2Z.inj_mod, H. reflexivity.
Qed.

(** X9. When the length of the input is a multiple of 256, its first 32
    bytes have no part in what [update] and [start] leave: two inputs of
    such a length that differ in their first 32 bytes only end in the same
    object, and in the same digest text. *)
Theorem update_ignores_first_block (bo : byte_order) (this : CCSH)
    (A A' T : list byte) :
  length A = 32%nat -> length A' = 32%nat ->
  ((32 + length T) mod 256 = 0)%nat ->
  update bo this (A ++ T) = update bo this (A' ++ T) /\
  start bo this (A ++ T) = start bo this (A' ++ T) /\
  exists s, start bo this (A ++ T) = Some s /\
            option_map hexdump (start bo this (A' ++ T)) = Some (hexdump s).
Proof.
  intros LA LA' M.
  assert (U : forall s, update bo s (A ++ T) = update bo s (A' ++ T)).
  { intros s.
    set (f := update_enter s (A ++ T)). set (g := update_enter s (A' ++ T)).
    assert (Cf : chunk f = []).
    { unfold chunk, chunk_length. cbn [f update_enter data].
      rewrite bytesToCopy_multiple_256
        by (rewrite length_app, LA; exact M).
      reflexivity. }
    assert (Cg : chunk g = []).
    { unfold chunk, chunk_length. cbn [g update_enter data].
      rewrite bytesToCopy_multiple_256
        by (rewrite length_app, LA'; exact M).
      reflexivity. }
    destruct (update_body_same_chunk bo f g
                (update_enter_frame_ok _ _) (update_enter_frame_ok _ _)
                eq_refl (eq_trans Cf (eq_sym Cg)))
      as (f' & g' & Hf & Hg & E1 & E2 & E3 & E4 & E5).
    assert (E : f' = g').
    { destruct f' as [a1 b1 c1 d1], g' as [a2 b2 c2 d2].
      cbn [self currState outputBlock data] in E1, E2, E3, E4, E5.
      cbn [f g update_enter data] in E4, E5.
      rewrite skipn_app, LA, skipn_all2 in E4 by lia.
      rewrite skipn_app, LA', skipn_all2 in E5 by lia.
      rewrite E1, E2, E3, E4, E5. reflexivity. }
    destruct A as [|a A0]; [discriminate LA|].
    destruct A' as [|a' A0']; [discriminate LA'|].
    cbn [app]. rewrite !update_unfold.
    cbn [app] in f, g. fold f. fold g. rewrite Hf, Hg, E. cbn [bind].
    replace (length (A0 ++ T)) with (length (A0' ++ T)); [reflexivity|].
    rewrite !length_app. cbn [length] in LA, LA'. lia. }
  split; [apply U|].
  assert (S : start bo this (A ++ T) = start bo this (A' ++ T)).
  { unfold start. cbv zeta. apply U. }
  split; [exact S|].
  destruct (start_total bo this (A ++ T)) as [s H].
  exists s. split; [exact H|]. rewrite <- S, H. reflexivity.
Qed.

Lemma update_ignores_first_block_witness :
  length (repeat Byte.x61 32) = 32%nat /\
  length (repeat Byte.x62 32) = 32%nat /\
  ((32 + length (repeat Byte.x63 224)) mod 256 = 0)%nat /\
  (update LittleEndian CCSH_new (repeat Byte.x61 32 ++ repeat Byte.x63 224) =
   update LittleEndian CCSH_new (repeat Byte.x62 32 ++ repeat Byte.x63 224) /\
   start LittleEndian CCSH_new (repeat Byte.x61 32 ++ repeat Byte.x63 224) =
   start LittleEndian CCSH_new (repeat Byte.x62 32 ++ repeat Byte.x63 224) /\
   exists s,
     start LittleEndian CCSH_new (repeat Byte.x61 32 ++ repeat Byte.x63 224)
       = Some s /\
     option_map hexdump
       (start LittleEndian CCSH_new
          (repeat Byte.x62 32 ++ repeat Byte.x63 224)) = Some (hexdump s)).
Proof.
  split; [reflexivity | split; [reflexivity | split; [reflexivity|]]].
  apply (update_ignores_first_block LittleEndian CCSH_new
           (repeat Byte.x61 32) (repeat Byte.x62 32) (repeat Byte.x63 224));
    reflexivity.
Defined.

(** ** Reading the digest text back *)

Lemma hex_value_digit (d : Z) : 0 <= d < 16 -> hex_value (hex_digit d) = d.
Proof.
  intros H.
  assert (C : d = 0 \/ d = 1 \/ d = 2 \/ d = 3 \/ d = 4 \/ d = 5 \/ d = 6 \/
              d = 7 \/ d = 8 \/ d = 9 \/ d = 10 \/ d = 11 \/ d = 12 \/
              d = 13 \/ d = 14 \/ d = 15) by lia.
  repeat (destruct C as [-> | C]; [reflexivity|]). rewrite C. reflexivity.
Qed.

Lemma nibble_range (w : Z) (k : nat) : 0 <= nibble w k < 16.
Proof. unfold nibble. apply Z.mod_pos_bound. reflexivity. Qed.

Lemma parse_hex8 (w : Z) : is_u32 w -> parse_hex (hex8 w) 0 = w.
Proof.
  intros [H0 H1]. unfold hex8.
  cbn [map string_of_list_ascii parse_hex].
  rewrite !hex_value_digit by apply nibble_range.
  rewrite !nibble_S, !nibble_0.
  assert (H8 : w / 16 / 16 / 16 / 16 / 16 / 16 / 16 / 16 = 0).
  { rewrite !Z.div_div by lia. apply Z.div_small. split; [exact H0|].
    exact H1. }
  set (w1 := w / 16) in *. set (w2 := w1 / 16) in *.
  set (w3 := w2 / 16) in *. set (w4 := w3 / 16) in *.
  set (w5 := w4 / 16) in *. set (w6 := w5 / 16) in *.
  set (w7 := w6 / 16) in *.
  pose proof (Z.div_mod w 16 ltac:(lia)) as E0.
  pose proof (Z.div_mod w1 16 ltac:(lia)) as E1.
  pose proof (Z.div_mod w2 16 ltac:(lia)) as E2.
  pose proof (Z.div_mod w3 16 ltac:(lia)) as E3.
  pose proof (Z.div_mod w4 16 ltac:(lia)) as E4.
  pose proof (Z.div_mod w5 16 ltac:(lia)) as E5.
  pose proof (Z.div_mod w6 16 ltac:(lia)) as E6.
  pose proof (Z.div_mod w7 16 ltac:(lia)) as E7.
  fold w1 in E0. fold w2 in E1. fold w3 in E2. fold w4 in E3.
  fold w5 in E4. fold w6 in E5. fold w7 in E6. rewrite H8 in E7.
  lia.
Qed.

Lemma parse_words_hex8 (k : nat) (w : Z) (rest : string) :
  parse_words (S k) (hex8 w ++ rest) = parse_hex (hex8 w) 0 :: parse_words k rest.
Proof. reflexivity. Qed.

Lemma parse_words_digest_text (st : list Z) :
  length st = 16%nat -> Forall is_u32 st ->
  parse_words 16 (digest_text st) = st.
Proof.
  intros L U. unfold digest_text. cbn [seq map String.concat].
  assert (G : forall j, is_u32 (arr_get j st)) by (intros; apply arr_get_u32, U).
  cbn [append].
  repeat (rewrite parse_words_hex8, parse_hex8 by apply G).
  replace (hex8 (arr_get 15 st)) with (hex8 (arr_get 15 st) ++ "")%string
    by (unfold hex8; reflexivity).
  rewrite parse_words_hex8, parse_hex8 by apply G.
  sixteen st L. reflexivity.
Qed.

(** X10. The digest text determines the state: in every state that calls
    lead to, reading the 128 characters of [hexdump] back, eight digits a
    word, gives the sixteen words of [state]; so two reachable objects with
    the same digest text have the same [state]. *)
Theorem hexdump_determines_state (bo bo' : byte_order) (this other : CCSH) :
  reachable bo this -> reachable bo' other ->
  parse_words 16 (hexdump this) = state this /\
  (hexdump other = hexdump this -> state other = state this).
Proof.
  intros R R'.
  destruct (reachable_ok bo this R) as (L & U & _).
  destruct (reachable_ok bo' other R') as (L' & U' & _).
  assert (P : parse_words 16 (hexdump this) = state this).
  { rewrite (hexdump_digest_text this U).
    apply parse_words_digest_text; assumption. }
  split; [exact P|].
  intros E. rewrite <- P, <- E, (hexdump_digest_text other U').
  symmetry. apply parse_words_digest_text; assumption.
Qed.

Lemma hexdump_determines_state_witness :
  reachable LittleEndian after_abc /\ reachable BigEndian CCSH_new /\
  (parse_words 16 (hexdump after_abc) = state after_abc /\
   (hexdump CCSH_new = hexdump after_abc -> state CCSH_new = state after_abc)).
Proof.
  assert (R : reachable BigEndian CCSH_new) by (exists [], []; reflexivity).
  split; [apply after_abc_reachable | split; [exact R|]].
  apply (hexdump_determines_state LittleEndian BigEndian after_abc CCSH_new);
    [apply after_abc_reachable | exact R].
Defined.

(** ** The state enters by exclusive or only *)

Lemma xor_words_zero (st : list Z) :
  length st = 16%nat -> xor_words st (repeat 0 16) = st.
Proof.
  intros L. sixteen st L. unfold xor_words, arr_get.
  cbn [seq map nth repeat]. rewrite !Z.lxor_0_r. reflexivity.
Qed.

Lemma arr_get_xor_words (j : nat) (a b : list Z) :
  (j < 16)%nat ->
  arr_get j (xor_words a b) = Z.lxor (arr_get j a) (arr_get j b).
Proof.
  intros Hj. unfold xor_words.
  do 16 (destruct j as [|j]; [reflexivity|]). lia.
Qed.

Lemma xor_words_assoc (a b c : list Z) :
  xor_words (xor_words a b) c = xor_words a (xor_words b c).
Proof.
  unfold xor_words at 1 3. apply map_ext_in. intros j Hj.
  apply in_seq in Hj. rewrite !arr_get_xor_words by lia.
  apply Z.lxor_assoc.
Qed.

Lemma xor_words_cancel (a b k : list Z) :
  xor_words (xor_words a k) (xor_words b k) = xor_words a b.
Proof.
  unfold xor_words at 1 4. apply map_ext_in. intros j Hj.
  apply in_seq in Hj. rewrite !arr_get_xor_words by lia.
  rewrite Z.lxor_assoc, (Z.lxor_comm (arr_get j b)), <- (Z.lxor_assoc (arr_get j k)).
  rewrite Z.lxor_nilpotent, Z.lxor_0_l. reflexivity.
Qed.

Lemma xor_words_length (a b : list Z) : length (xor_words a b) = 16%nat.
Proof. unfold xor_words. rewrite length_map, length_seq. reflexivity. Qed.

Lemma update_loop_xors (bo : byte_order) (fuel : nat) :
  forall (c n : Z) (cs ob : list Z) (bytes : list byte),
    block_shape cs -> length ob = 16%nat ->
    exists K,
      length K = 16%nat /\
      forall st f',
        length st = 16%nat ->
        update_loop bo fuel
          {| self := {| state := st; counter := c; nonce := n;
                        initialized := true |};
             currState := cs; outputBlock := ob; data := bytes |} = Some f' ->
        state (self f') = xor_words st K.
Proof.
  induction fuel as [|fuel IH]; intros c n cs ob bytes Hcs Hob.
  - exists (repeat 0 16). split; [reflexivity|].
    intros st f' L H. unfold update_loop in H. cbn [data] in H.
    destruct bytes; [|discriminate H].
    apply Some_inj in H. subst f'. cbn [self state].
    symmetry. apply xor_words_zero, L.
  - destruct bytes as [|x tl].
    + exists (repeat 0 16). split; [reflexivity|].
      intros st f' L H. rewrite update_loop_done in H by reflexivity.
      apply Some_inj in H. subst f'. cbn [self state].
      symmetry. apply xor_words_zero, L.
    + set (mk := fun st =>
        {| self := {| state := st; counter := c; nonce := n;
                      initialized := true |};
           currState := cs; outputBlock := ob; data := x :: tl |}).
      set (g := mk (repeat 0 16)).
      set (blk := block_of bo (chunk g)
                    (u64 (c + Z.of_nat (length (chunk g)))) n).
      set (out := Reference.permutation blk).
      destruct (IH (u64 (c + Z.of_nat (chunk_length g))) (u64 (n + 1))
                  blk out (skipn 32 (x :: tl)))
        as (K' & LK' & HK').
      { unfold blk.
        pose proof (block_of_currState bo g (conj (proj1 Hcs) (proj2 Hcs))) as E.
        cbn [g mk self counter nonce] in E. rewrite <- E.
        apply prepare_block_shape. exact Hcs. }
      { apply permutation_length. }
      exists (xor_words out K'). split; [apply xor_words_length|].
      intros st f' L H. fold (mk st) in H.
      rewrite update_loop_step in H by discriminate.
      apply bind_Some in H. destruct H as [f1 [Hb H]].
      assert (F : frame_ok (mk st)) by (split; assumption).
      assert (Ch : chunk (mk st) = chunk g) by (apply chunk_same_data; reflexivity).
      assert (Cl : chunk_length (mk st) = chunk_length g).
      { rewrite <- !chunk_is_length, Ch. reflexivity. }
      destruct (update_body_state bo (mk st) f1 F L Hb) as [Ho Hs].
      destruct (update_body_inv bo (mk st) f1 Hb)
        as (_ & _ & Hc1 & _ & Hd & Hc & Hn & Hi & _).
      rewrite (block_of_currState bo (mk st) (proj1 F)), Ch in Ho, Hs, Hc1.
      rewrite Cl in Hc.
      cbn [mk self counter nonce state initialized data] in Ho, Hs, Hc1, Hd, Hc, Hn.
      fold blk in Ho, Hs, Hc1. fold out in Ho, Hs.
      assert (E1 : f1 =
        {| self := {| state := xor_words st out;
                      counter := u64 (c + Z.of_nat (chunk_length g));
                      nonce := u64 (n + 1); initialized := true |};
           currState := blk; outputBlock := out;
           data := skipn 32 (x :: tl) |}).
      { destruct f1 as [[s1 c1 n1 i1] cs1 ob1 d1].
        cbn [self currState outputBlock data state counter nonce initialized]
          in Ho, Hs, Hc1, Hd, Hc, Hn, Hi.
        rewrite Ho, Hs, Hc1, Hd, Hc, Hn, Hi. reflexivity. }
      rewrite E1 in H.
      rewrite (HK' (xor_words st out) f' (xor_words_length _ _) H).
      apply xor_words_assoc.
Qed.

(** X11. What a call of [update] does to an object with [initialized] true
    is one exclusive or: for each byte order, [counter], [nonce] and input
    there are sixteen words [K], the same for every [state], such that the
    call returns and the [state] after it is the [state] before it with
    [K] folded in, word by word.  So the exclusive or of the states of two
    such objects is the same before and after they take in the same
    bytes. *)
Theorem update_xors_into_state (bo : byte_order) (c n : Z) (bytes : list byte) :
  exists K,
    length K = 16%nat /\
    (forall st,
       length st = 16%nat ->
       exists u,
         update bo {| state := st; counter := c; nonce := n;
                      initialized := true |} bytes = Some u /\
         state u = xor_words st K) /\
    (forall st st' u u',
       length st = 16%nat -> length st' = 16%nat ->
       update bo {| state := st; counter := c; nonce := n;
                    initialized := true |} bytes = Some u ->
       update bo {| state := st'; counter := c; nonce := n;
                    initialized := true |} bytes = Some u' ->
       xor_words (state u) (state u') = xor_words st st').
Proof.
  destruct (update_loop_xors bo (length bytes) c n currState_init
              (repeat 0 16) bytes block_shape_init eq_refl)
    as (K & LK & HK).
  assert (One : forall st u,
            length st = 16%nat ->
            update bo {| state := st; counter := c; nonce := n;
                         initialized := true |} bytes = Some u ->
            state u = xor_words st K).
  { intros st u L H. unfold update in H.
    apply bind_Some in H. destruct H as [f [Hl H]].
    apply Some_inj in H. subst u. apply (HK st f L Hl). }
  exists K. split; [exact LK|]. split.
  - intros st L.
    destruct (update_total bo {| state := st; counter := c; nonce := n;
                                 initialized := true |} bytes)
      as (f & _ & _ & _ & H).
    exists (self f). split; [exact H|]. apply (One st (self f) L H).
  - intros st st' u u' L L' H H'.
    rewrite (One st u L H), (One st' u' L' H'). apply xor_words_cancel.
Qed.
